(** * overlord/proxy: the per-connection handler (handler.go)

    A shallow embedding of [proxy/handler.go]: the [Handler] of one client
    connection, its decode / forward / encode / flush cycle, the adaptive
    batch allocator [allocMaxConcurrent] and the close path
    ([deferHandle], [closeWithError]).

    The handler orchestrates collaborators that live in other packages
    (codec, forwarder, registry, message pool, telemetry).  Every call it
    makes to one of them is recorded, in program order, in the [calls]
    field of the [World]; what a collaborator answers is supplied by a
    per-cycle [Script].  The handler's own mutable fields ([h.closed],
    [h.err]) and the proxy counter [h.p.conns] are state.  Calls to the
    logger are left out. *)

From Stdlib Require Import ZArith List String Bool Lia Arith.
Import ListNotations.
Local Open Scope Z_scope.

(** ** Data *)

(** A non-nil Go [error]; the nil error is [None] of [option error]. *)
Definition error := string.

(** [*proto.Message] and [proto.Forwarder] values are used by identity. *)
Definition MsgId := nat.
Definition FwdId := nat.

(** Modelled from the spec: [types.CacheType] is declared in
    [overlord/pkg/types]; the four kinds the constructor switches on, and
    any other value. *)
Inductive CacheType :=
| CacheTypeMemcache
| CacheTypeMemcacheBinary
| CacheTypeRedis
| CacheTypeRedisCluster
| CacheTypeOther (tag : string).

Definition ErrNoSupportCacheType : error := "types.ErrNoSupportCacheType"%string.

(** The codec instance [h.pc], one constructor per [NewProxyConn]. *)
Inductive ProxyConn :=
| MemcacheProxyConn (conn : Z)
| McbinProxyConn (conn : Z)
| RedisProxyConn (conn : Z)
| RclstrProxyConn (conn : Z).

Inductive ForwarderState := ForwarderStateOpen | ForwarderStateClosed.

Definition ForwarderState_eqb (a b : ForwarderState) : bool :=
  match a, b with
  | ForwarderStateOpen, ForwarderStateOpen => true
  | ForwarderStateClosed, ForwarderStateClosed => true
  | _, _ => false
  end.

Definition handlerOpening : Z := 0.
Definition handlerClosed : Z := 1.

Definition concurrent : Z := 2.
Definition maxConcurrent : Z := 1024.

Record ClusterConfig := mkClusterConfig {
  cc_ID : Z;
  cc_Name : string;
  cc_CacheType : CacheType;
  cc_ListenAddr : string;
  cc_CloseWhenChange : bool
}.

(** The immutable fields of [Handler]; [conn] is the id of the client
    connection.  [closed] and [err] are mutable and live in the [World]. *)
Record Handler := mkHandler {
  ClusterID : Z;
  Name : string;
  CacheType_ : CacheType;
  ListenAddr : string;
  closeWhenChange : bool;
  conn : Z;
  pc : ProxyConn
}.

(** ** Calls to collaborators *)

Inductive Event :=
| EvConnIncr (name : string)                      (* prom.ConnIncr *)
| EvConnDecr (name : string)                      (* prom.ConnDecr *)
| EvProxyTime (name : string) (m : MsgId)         (* prom.ProxyTime *)
| EvGetForwarder (cluster : Z) (f : FwdId)        (* h.p.GetForwarder *)
| EvRemoveConnection (cluster : Z) (connid : Z)   (* h.p.RemoveConnection *)
| EvDecode (batch : list MsgId)                   (* h.pc.Decode *)
| EvEncode (m : MsgId) (f : FwdId)                (* h.pc.Encode *)
| EvFlush                                         (* h.pc.Flush *)
| EvState (f : FwdId)                             (* forwarder.State *)
| EvForward (f : FwdId) (msgs : list MsgId)       (* forwarder.Forward *)
| EvRelease (f : FwdId)                           (* forwarder.Release *)
| EvWait                                          (* wg.Wait *)
| EvMarkEnd (m : MsgId)                           (* msg.MarkEnd *)
| EvResetSubs (m : MsgId)                         (* msg.ResetSubs *)
| EvReset (m : MsgId)                             (* msg.Reset *)
| EvWithWaitGroup (m : MsgId)                     (* msg.WithWaitGroup *)
| EvPutMsgs (batch : list MsgId)                  (* proto.PutMsgs *)
| EvGetMsgs (n : Z) (batch : list MsgId)          (* proto.GetMsgs *)
| EvConnClose (connid : Z).                       (* h.conn.Close *)

(** ** State *)

Record World := mkWorld {
  closed : Z;             (* h.closed, int32 *)
  err : option error;     (* h.err *)
  conns : Z;              (* h.p.conns, int32 *)
  promOn : bool;          (* prom.On *)
  poolNext : nat;         (* next message the pool hands out *)
  calls : list Event      (* calls made so far, oldest first *)
}.

(** [int32] arithmetic wraps around. *)
Definition wrap32 (z : Z) : Z := (z + 2 ^ 31) mod 2 ^ 32 - 2 ^ 31.

(** A small state monad over [World]. *)
Definition M (A : Type) : Type := World -> A * World.

Definition ret {A} (a : A) : M A := fun w => (a, w).
Definition bind {A B} (m : M A) (k : A -> M B) : M B :=
  fun w => let (a, w') := m w in k a w'.

Notation "x <- m ;; k" := (bind m (fun x => k))
  (at level 61, m at next level, right associativity).
Notation "m ;;; k" := (bind m (fun _ => k))
  (at level 61, right associativity).

Definition emit (e : Event) : M unit :=
  fun w => (tt, mkWorld (closed w) (err w) (conns w) (promOn w) (poolNext w)
                        (calls w ++ [e])).

Definition when (b : bool) (m : M unit) : M unit :=
  if b then m else ret tt.

Fixpoint forEach {A} (l : list A) (body : A -> M unit) : M unit :=
  match l with
  | [] => ret tt
  | x :: rest => body x ;;; forEach rest body
  end.

(** ** The message pool *)

Definition len {A} (l : list A) : Z := Z.of_nat (List.length l).

Definition PutMsgs (msgs : list MsgId) : M unit := emit (EvPutMsgs msgs).

(** Modelled from the spec: [proto.GetMsgs] is defined in
    [overlord/proxy/proto]; it draws a batch of the requested capacity
    from the pool. *)
Definition GetMsgs (n : Z) : M (list MsgId) :=
  fun w =>
    let batch := seq (poolNext w) (Z.to_nat n) in
    (batch, mkWorld (closed w) (err w) (conns w) (promOn w)
                    (poolNext w + Z.to_nat n)%nat
                    (calls w ++ [EvGetMsgs n batch])).

(** ** The adaptive batch allocator *)

(** The value of [alloc] before the test [alloc > 0].  Go's [int] does not
    wrap here: the product is taken below [maxConcurrent] only. *)
Definition allocSize (lm lastCount : Z) : Z :=
  if lm =? 0 then concurrent
  else if (lm <? maxConcurrent) && (lm =? lastCount) then lm * concurrent
  else 0.

Definition allocMaxConcurrent (msgs : list MsgId) (lastCount : Z)
  : M (list MsgId) :=
  let alloc := allocSize (len msgs) lastCount in
  if 0 <? alloc then
    PutMsgs msgs ;;;
    msgs' <- GetMsgs alloc ;;
    forEach msgs' (fun msg => emit (EvWithWaitGroup msg)) ;;;
    ret msgs'
  else ret msgs.

(** The allocator over consecutive cycles: [counts] are the decoded counts
    the cycles report, the result lists the batch each call returned. *)
Fixpoint allocCycles (counts : list Z) (msgs : list MsgId) (w : World)
  : list (list MsgId) :=
  match counts with
  | [] => []
  | lastCount :: rest =>
      let (msgs', w') := allocMaxConcurrent msgs lastCount w in
      msgs' :: allocCycles rest msgs' w'
  end.

(** ** Construction *)

Inductive GoResult (A : Type) :=
| Returned (a : A)
| Panicked (e : error).
Arguments Returned {A} a.
Arguments Panicked {A} e.

(** Sequencing in Go: a panic skips everything that follows. *)
Definition andThen {A B} (m : M (GoResult A)) (k : A -> M (GoResult B))
  : M (GoResult B) :=
  r <- m ;;
  match r with
  | Returned a => k a
  | Panicked e => ret (Panicked e)
  end.

(** The struct literal gives [closed] and [err] their zero values. *)
Definition newStruct : M unit :=
  fun w => (tt, mkWorld handlerOpening None (conns w) (promOn w) (poolNext w)
                        (calls w)).

Definition NewHandler (cc : ClusterConfig) (client : Z)
  : M (GoResult Handler) :=
  let h := mkHandler (cc_ID cc) (cc_Name cc) (cc_CacheType cc)
                     (cc_ListenAddr cc) (cc_CloseWhenChange cc) client in
  newStruct ;;;
  match cc_CacheType cc with
  | CacheTypeMemcache =>
      emit (EvConnIncr (cc_Name cc)) ;;;
      ret (Returned (h (MemcacheProxyConn client)))
  | CacheTypeMemcacheBinary =>
      emit (EvConnIncr (cc_Name cc)) ;;;
      ret (Returned (h (McbinProxyConn client)))
  | CacheTypeRedis =>
      emit (EvConnIncr (cc_Name cc)) ;;;
      ret (Returned (h (RedisProxyConn client)))
  | CacheTypeRedisCluster =>
      emit (EvConnIncr (cc_Name cc)) ;;;
      ret (Returned (h (RclstrProxyConn client)))
  | CacheTypeOther _ => ret (Panicked ErrNoSupportCacheType)
  end.

(** ** The close path *)

Definition CompareAndSwapInt32_closed (old new : Z) : M bool :=
  fun w =>
    if closed w =? old
    then (true, mkWorld new (err w) (conns w) (promOn w) (poolNext w) (calls w))
    else (false, w).

Definition setErr (e : option error) : M unit :=
  fun w => (tt, mkWorld (closed w) e (conns w) (promOn w) (poolNext w)
                        (calls w)).

Definition AddInt32_conns (delta : Z) : M unit :=
  fun w => (tt, mkWorld (closed w) (err w) (wrap32 (conns w + delta))
                        (promOn w) (poolNext w) (calls w)).

Definition getPromOn : M bool := fun w => (promOn w, w).

Definition closeWithError (h : Handler) (e : option error) : M unit :=
  swapped <- CompareAndSwapInt32_closed handlerOpening handlerClosed ;;
  when swapped (
    setErr e ;;;
    emit (EvConnClose (conn h)) ;;;
    AddInt32_conns (-1) ;;;
    on <- getPromOn ;;
    when on (emit (EvConnDecr (Name h)))).

Definition deferHandle (h : Handler) (msgs : list MsgId) (e : option error)
  : M unit :=
  emit (EvRemoveConnection (ClusterID h) (conn h)) ;;;
  PutMsgs msgs ;;;
  closeWithError h e.

(** *** [closeWithError] statement by statement

    Two goroutines may run [closeWithError] on the same handler at once.
    Each statement of the function is one atomic step; [ClosePC] is the
    statement a goroutine is about to execute. *)
Inductive ClosePC :=
| PcCompareAndSwap
| PcSetErr
| PcConnClose
| PcAddConns
| PcConnDecr
| PcDone.

Definition closeStep (h : Handler) (e : option error) (pc : ClosePC)
  : M ClosePC :=
  match pc with
  | PcCompareAndSwap =>
      swapped <- CompareAndSwapInt32_closed handlerOpening handlerClosed ;;
      ret (if swapped then PcSetErr else PcDone)
  | PcSetErr => setErr e ;;; ret PcConnClose
  | PcConnClose => emit (EvConnClose (conn h)) ;;; ret PcAddConns
  | PcAddConns => AddInt32_conns (-1) ;;; ret PcConnDecr
  | PcConnDecr =>
      on <- getPromOn ;;
      when on (emit (EvConnDecr (Name h))) ;;; ret PcDone
  | PcDone => ret PcDone
  end.

(** One goroutine alone, for [n] steps. *)
Fixpoint closeSteps (h : Handler) (e : option error) (n : nat) (pc : ClosePC)
  : M ClosePC :=
  match n with
  | O => ret pc
  | S n' => pc' <- closeStep h e pc ;; closeSteps h e n' pc'
  end.

(** Two goroutines under a schedule: [true] lets the first one take its
    next step, [false] the second. *)
Fixpoint interleave (h : Handler) (e1 e2 : option error) (sched : list bool)
  (pcs : ClosePC * ClosePC) : M (ClosePC * ClosePC) :=
  match sched with
  | [] => ret pcs
  | true :: rest =>
      pc1 <- closeStep h e1 (fst pcs) ;;
      interleave h e1 e2 rest (pc1, snd pcs)
  | false :: rest =>
      pc2 <- closeStep h e2 (snd pcs) ;;
      interleave h e1 e2 rest (fst pcs, pc2)
  end.

(** The error of the goroutine the schedule runs first. *)
Definition firstError (e1 e2 : option error) (sched : list bool)
  : option error :=
  match sched with
  | false :: _ => e2
  | _ => e1
  end.

(** ** The cycle *)

(** What the collaborators answer during one cycle. *)
Record Script := mkScript {
  sc_Decode : list MsgId -> list MsgId * option error;  (* h.pc.Decode *)
  sc_State : ForwarderState;                            (* forwarder.State *)
  sc_GetForwarder : FwdId;                              (* h.p.GetForwarder *)
  sc_Forward : option error;                            (* forwarder.Forward *)
  sc_Encode : nat -> option error;          (* i-th h.pc.Encode of the cycle *)
  sc_Flush : option error                               (* h.pc.Flush *)
}.

(** The [return] statement a cycle leaves [handle] through. *)
Inductive Exit :=
| ExitDecode       (* line 101 *)
| ExitTopology     (* line 109 *)
| ExitForward      (* line 120 *)
| ExitEncode       (* line 130 *)
| ExitFlush.       (* line 142 *)

Inductive Next :=
| Continue (messages : list MsgId) (forwarder : FwdId)
| Return (x : Exit).

(** The encode loop; [Some e] when [Encode] failed, the caller then runs
    the body of the [if]. *)
Fixpoint encodeLoop (h : Handler) (sc : Script) (forwarder : FwdId)
  (i : nat) (msgs : list MsgId) : M (option error) :=
  match msgs with
  | [] => ret None
  | msg :: rest =>
      emit (EvEncode msg forwarder) ;;;
      match sc_Encode sc i with
      | Some e => ret (Some e)
      | None =>
          emit (EvMarkEnd msg) ;;;
          emit (EvResetSubs msg) ;;;
          on <- getPromOn ;;
          when on (emit (EvProxyTime (Name h) msg)) ;;;
          encodeLoop h sc forwarder (S i) rest
      end
  end.

(** The forwarder check of lines 103-113: [None] when the handler closed
    the connection, otherwise the forwarder to go on with. *)
Definition checkForwarder (h : Handler) (sc : Script)
  (messages : list MsgId) (err : option error) (forwarder : FwdId)
  : M (option FwdId) :=
  emit (EvState forwarder) ;;;
  if ForwarderState_eqb ForwarderStateClosed (sc_State sc) then
    emit (EvRelease forwarder) ;;;
    if closeWhenChange h then
      deferHandle h messages err ;;; ret None
    else
      emit (EvGetForwarder (ClusterID h) (sc_GetForwarder sc)) ;;;
      ret (Some (sc_GetForwarder sc))
  else ret (Some forwarder).

Definition cycle (h : Handler) (sc : Script) (messages : list MsgId)
  (forwarder : FwdId) : M Next :=
  emit (EvDecode messages) ;;;
  let (msgs, err) := sc_Decode sc messages in
  match err with
  | Some _ =>
      deferHandle h messages err ;;;
      emit (EvRelease forwarder) ;;;
      ret (Return ExitDecode)
  | None =>
      checked <- checkForwarder h sc messages err forwarder ;;
      match checked with
      | None => ret (Return ExitTopology)
      | Some forwarder =>
          emit (EvForward forwarder msgs) ;;;
          match sc_Forward sc with
          | Some e =>
              deferHandle h messages (Some e) ;;;
              emit (EvRelease forwarder) ;;;
              ret (Return ExitForward)
          | None =>
              emit EvWait ;;;
              encoded <- encodeLoop h sc forwarder 0 msgs ;;
              match encoded with
              | Some e =>
                  emit EvFlush ;;;
                  deferHandle h messages (Some e) ;;;
                  emit (EvRelease forwarder) ;;;
                  ret (Return ExitEncode)
              | None =>
                  emit EvFlush ;;;
                  match sc_Flush sc with
                  | Some e =>
                      deferHandle h messages (Some e) ;;;
                      emit (EvRelease forwarder) ;;;
                      ret (Return ExitFlush)
                  | None =>
                      forEach msgs (fun msg => emit (EvReset msg)) ;;;
                      messages' <- allocMaxConcurrent messages (len msgs) ;;
                      ret (Continue messages' forwarder)
                  end
              end
          end
      end
  end.

(** The [for] loop of [handle] over the scripted cycles: [Some x] when a
    cycle returned, [None] when every scripted cycle completed and the
    handler is about to decode again. *)
Fixpoint handleLoop (h : Handler) (scripts : list Script)
  (messages : list MsgId) (forwarder : FwdId) : M (option Exit) :=
  match scripts with
  | [] => ret None
  | sc :: rest =>
      next <- cycle h sc messages forwarder ;;
      match next with
      | Continue messages' forwarder' => handleLoop h rest messages' forwarder'
      | Return x => ret (Some x)
      end
  end.

(** [handle]; [first] is the forwarder the registry hands out before the
    loop.  [messages] and [msgs] start out nil. *)
Definition handle (h : Handler) (first : FwdId) (scripts : list Script)
  : M (option Exit) :=
  messages <- allocMaxConcurrent [] (len (@nil MsgId)) ;;
  emit (EvGetForwarder (ClusterID h) first) ;;;
  handleLoop h scripts messages first.

(** ** Reading the record of calls *)

(** The calls made between two worlds. *)
Definition since (w w' : World) : list Event :=
  skipn (List.length (calls w)) (calls w').

Definition isRemoveConnection (e : Event) : bool :=
  match e with EvRemoveConnection _ _ => true | _ => false end.

Definition isConnIncr (e : Event) : bool :=
  match e with EvConnIncr _ => true | _ => false end.

Definition count (p : Event -> bool) (evs : list Event) : nat :=
  List.length (filter p evs).

(** The forwarders [Release] was called on, in call order. *)
Definition released (evs : list Event) : list FwdId :=
  flat_map (fun e => match e with EvRelease f => [f] | _ => [] end) evs.

(** The forwarders [GetForwarder] handed out, in call order. *)
Definition acquired (evs : list Event) : list FwdId :=
  flat_map (fun e => match e with EvGetForwarder _ f => [f] | _ => [] end) evs.

(** The [Forward] calls: forwarder and messages, in call order. *)
Definition forwarded (evs : list Event) : list (FwdId * list MsgId) :=
  flat_map (fun e => match e with EvForward f ms => [(f, ms)] | _ => [] end)
           evs.

(** The [Encode] calls: message and forwarder, in call order. *)
Definition encoded (evs : list Event) : list (MsgId * FwdId) :=
  flat_map (fun e => match e with EvEncode m f => [(m, f)] | _ => [] end) evs.

(** The messages [Reset] was called on, in call order. *)
Definition resetMsgs (evs : list Event) : list MsgId :=
  flat_map (fun e => match e with EvReset m => [m] | _ => [] end) evs.

(** The batches given back through [PutMsgs], in call order. *)
Definition putBatches (evs : list Event) : list (list MsgId) :=
  flat_map (fun e => match e with EvPutMsgs b => [b] | _ => [] end) evs.

(** The [Flush] calls. *)
Definition flushes (evs : list Event) : list unit :=
  flat_map (fun e => match e with EvFlush => [tt] | _ => [] end) evs.

(** The connections [Close] was called on. *)
Definition connCloses (evs : list Event) : list Z :=
  flat_map (fun e => match e with EvConnClose c => [c] | _ => [] end) evs.

(** Acquisitions and releases of forwarder references, in call order. *)
Inductive RefOp :=
| Acquire (f : FwdId)
| Release (f : FwdId).

Definition refOps (evs : list Event) : list RefOp :=
  flat_map (fun e => match e with
                     | EvGetForwarder _ f => [Acquire f]
                     | EvRelease f => [Release f]
                     | _ => []
                     end) evs.

(** Replays acquisitions and releases against the reference currently
    held: acquiring while one is held, or releasing anything but the held
    reference, is [None]; otherwise the reference held at the end. *)
Fixpoint holding (ops : list RefOp) (cur : option FwdId)
  : option (option FwdId) :=
  match ops, cur with
  | [], _ => Some cur
  | Acquire f :: rest, None => holding rest (Some f)
  | Acquire _ :: _, Some _ => None
  | Release f :: rest, Some g =>
      if Nat.eqb f g then holding rest None else None
  | Release _ :: _, None => None
  end.

(** The capacities [allocMaxConcurrent] can hand out. *)
Definition capacities : list Z := [2; 4; 8; 16; 32; 64; 128; 256; 512; 1024].

(** The calls a successful [closeWithError] makes. *)
Definition closeCalls (h : Handler) (on : bool) : list Event :=
  EvConnClose (conn h) :: (if on then [EvConnDecr (Name h)] else []).

(** What a successful encode of one message records. *)
Definition encodeCalls (h : Handler) (on : bool) (f : FwdId) (m : MsgId)
  : list Event :=
  [EvEncode m f; EvMarkEnd m; EvResetSubs m]
  ++ (if on then [EvProxyTime (Name h) m] else []).

(** The world once the goroutine that won the compare-and-swap, closing
    with [e], is about to execute [pc]; [w] is the world before the swap. *)
Definition closeProgress (h : Handler) (e : option error) (pc : ClosePC)
  (w : World) : World :=
  match pc with
  | PcCompareAndSwap => w
  | PcSetErr =>
      mkWorld handlerClosed (err w) (conns w) (promOn w) (poolNext w) (calls w)
  | PcConnClose =>
      mkWorld handlerClosed e (conns w) (promOn w) (poolNext w) (calls w)
  | PcAddConns =>
      mkWorld handlerClosed e (conns w) (promOn w) (poolNext w)
              (calls w ++ [EvConnClose (conn h)])
  | PcConnDecr =>
      mkWorld handlerClosed e (wrap32 (conns w - 1)) (promOn w) (poolNext w)
              (calls w ++ [EvConnClose (conn h)])
  | PcDone =>
      mkWorld handlerClosed e (wrap32 (conns w - 1)) (promOn w) (poolNext w)
              (calls w ++ closeCalls h (promOn w))
  end.

(** A goroutine that lost the swap, or has not tried yet. *)
Definition idlePC (pc : ClosePC) : bool :=
  match pc with PcCompareAndSwap | PcDone => true | _ => false end.

Definition startedPC (pc : ClosePC) : bool :=
  match pc with PcCompareAndSwap => false | _ => true end.

(** [w] with further calls recorded. *)
Definition addCalls (w : World) (evs : list Event) : World :=
  mkWorld (closed w) (err w) (conns w) (promOn w) (poolNext w)
          (calls w ++ evs).

(** The calls [closeWithError] makes in [w]. *)
Definition closeEvents (h : Handler) (w : World) : list Event :=
  if closed w =? handlerOpening then closeCalls h (promOn w) else [].

(** The calls [deferHandle] makes in [w]. *)
Definition deferCalls (h : Handler) (msgs : list MsgId) (w : World)
  : list Event :=
  [EvRemoveConnection (ClusterID h) (conn h); EvPutMsgs msgs]
  ++ closeEvents h w.

(** The world a cycle leaves behind when it returns: it made the calls
    [before], ran [deferHandle h messages e], then made the calls [after]. *)
Definition exitWorld (h : Handler) (messages : list MsgId) (e : option error)
  (w : World) (before after : list Event) : World :=
  let evs := before ++ deferCalls h messages w ++ after in
  if closed w =? handlerOpening
  then mkWorld handlerClosed e (wrap32 (conns w - 1)) (promOn w) (poolNext w)
               (calls w ++ evs)
  else addCalls w evs.

(** The calls of lines 103-113 when the cycle goes on to [Forward], and
    the forwarder it goes on with. *)
Definition checkCalls (h : Handler) (sc : Script) (f : FwdId) : list Event :=
  EvState f ::
  match sc_State sc with
  | ForwarderStateClosed =>
      [EvRelease f; EvGetForwarder (ClusterID h) (sc_GetForwarder sc)]
  | ForwarderStateOpen => []
  end.

Definition checkedForwarder (sc : Script) (f : FwdId) : FwdId :=
  match sc_State sc with
  | ForwarderStateClosed => sc_GetForwarder sc
  | ForwarderStateOpen => f
  end.

(** The calls of the encode loop over [msgs] from index [i] on, and the
    error that stopped it. *)
Fixpoint encodeTrace (h : Handler) (on : bool) (sc : Script) (f : FwdId)
  (i : nat) (msgs : list MsgId) : list Event * option error :=
  match msgs with
  | [] => ([], None)
  | msg :: rest =>
      match sc_Encode sc i with
      | Some e => ([EvEncode msg f], Some e)
      | None =>
          let (evs, r) := encodeTrace h on sc f (S i) rest in
          (encodeCalls h on f msg ++ evs, r)
      end
  end.

(** The calls of a cycle up to and including [Forward]. *)
Definition forwardCalls (h : Handler) (sc : Script) (messages msgs : list MsgId)
  (f : FwdId) : list Event :=
  [EvDecode messages] ++ checkCalls h sc f
  ++ [EvForward (checkedForwarder sc f) msgs].

(** The cycle as a relation: one rule per path through the loop body,
    with the answers of the collaborators that select it, what the cycle
    hands on and the world it leaves. *)
Inductive CyclePath (h : Handler) (sc : Script) (messages : list MsgId)
  (f : FwdId) (w : World) : Next -> World -> Prop :=
| PathDecodeError (msgs : list MsgId) (e : error) :
    sc_Decode sc messages = (msgs, Some e) ->
    CyclePath h sc messages f w (Return ExitDecode)
      (exitWorld h messages (Some e) w [EvDecode messages] [EvRelease f])
| PathTopologyClosed (msgs : list MsgId) :
    sc_Decode sc messages = (msgs, None) ->
    sc_State sc = ForwarderStateClosed -> closeWhenChange h = true ->
    CyclePath h sc messages f w (Return ExitTopology)
      (exitWorld h messages None w
         [EvDecode messages; EvState f; EvRelease f] [])
| PathForwardError (msgs : list MsgId) (e : error) :
    sc_Decode sc messages = (msgs, None) ->
    sc_State sc = ForwarderStateOpen \/ closeWhenChange h = false ->
    sc_Forward sc = Some e ->
    CyclePath h sc messages f w (Return ExitForward)
      (exitWorld h messages (Some e) w (forwardCalls h sc messages msgs f)
         [EvRelease (checkedForwarder sc f)])
| PathEncodeError (msgs : list MsgId) (e : error) :
    sc_Decode sc messages = (msgs, None) ->
    sc_State sc = ForwarderStateOpen \/ closeWhenChange h = false ->
    sc_Forward sc = None ->
    snd (encodeTrace h (promOn w) sc (checkedForwarder sc f) 0 msgs)
    = Some e ->
    CyclePath h sc messages f w (Return ExitEncode)
      (exitWorld h messages (Some e) w
         (forwardCalls h sc messages msgs f ++ [EvWait]
          ++ fst (encodeTrace h (promOn w) sc (checkedForwarder sc f) 0 msgs)
          ++ [EvFlush])
         [EvRelease (checkedForwarder sc f)])
| PathFlushError (msgs : list MsgId) (e : error) :
    sc_Decode sc messages = (msgs, None) ->
    sc_State sc = ForwarderStateOpen \/ closeWhenChange h = false ->
    sc_Forward sc = None ->
    snd (encodeTrace h (promOn w) sc (checkedForwarder sc f) 0 msgs) = None ->
    sc_Flush sc = Some e ->
    CyclePath h sc messages f w (Return ExitFlush)
      (exitWorld h messages (Some e) w
         (forwardCalls h sc messages msgs f ++ [EvWait]
          ++ flat_map (encodeCalls h (promOn w) (checkedForwarder sc f)) msgs
          ++ [EvFlush])
         [EvRelease (checkedForwarder sc f)])
| PathSuccess (msgs : list MsgId) :
    sc_Decode sc messages = (msgs, None) ->
    sc_State sc = ForwarderStateOpen \/ closeWhenChange h = false ->
    sc_Forward sc = None ->
    snd (encodeTrace h (promOn w) sc (checkedForwarder sc f) 0 msgs) = None ->
    sc_Flush sc = None ->
    let r := allocMaxConcurrent messages (len msgs)
               (addCalls w
                  (forwardCalls h sc messages msgs f ++ [EvWait]
                   ++ flat_map
                        (encodeCalls h (promOn w) (checkedForwarder sc f))
                        msgs
                   ++ [EvFlush] ++ map EvReset msgs)) in
    CyclePath h sc messages f w (Continue (fst r) (checkedForwarder sc f))
      (snd r).

(** The calls one invocation of the allocator makes; [next] is the pool
    cursor. *)
Definition allocCalls (msgs : list MsgId) (lastCount : Z) (next : nat)
  : list Event :=
  let alloc := allocSize (len msgs) lastCount in
  if 0 <? alloc then
    let batch := seq next (Z.to_nat alloc) in
    EvPutMsgs msgs :: EvGetMsgs alloc batch :: map EvWithWaitGroup batch
  else [].

(** The error the collaborator returned on the call that made the cycle
    leave through [x]. *)
Definition failedCall (h : Handler) (sc : Script) (messages : list MsgId)
  (f : FwdId) (w : World) (x : Exit) : option error :=
  match x with
  | ExitDecode => snd (sc_Decode sc messages)
  | ExitTopology => None
  | ExitForward => sc_Forward sc
  | ExitEncode =>
      snd (encodeTrace h (promOn w) sc (checkedForwarder sc f) 0
             (fst (sc_Decode sc messages)))
  | ExitFlush => sc_Flush sc
  end.

(** The calls a returning cycle made before [deferHandle], by exit. *)
Definition exitCalls (h : Handler) (sc : Script) (messages : list MsgId)
  (f : FwdId) (w : World) (x : Exit) : list Event :=
  let msgs := fst (sc_Decode sc messages) in
  let f' := checkedForwarder sc f in
  match x with
  | ExitDecode => [EvDecode messages]
  | ExitTopology => [EvDecode messages; EvState f; EvRelease f]
  | ExitForward => forwardCalls h sc messages msgs f
  | ExitEncode =>
      forwardCalls h sc messages msgs f ++ [EvWait]
      ++ fst (encodeTrace h (promOn w) sc f' 0 msgs) ++ [EvFlush]
  | ExitFlush =>
      forwardCalls h sc messages msgs f ++ [EvWait]
      ++ flat_map (encodeCalls h (promOn w) f') msgs ++ [EvFlush]
  end.

(** The calls a returning cycle made after [deferHandle], by exit. *)
Definition exitRelease (sc : Script) (f : FwdId) (x : Exit) : list Event :=
  match x with
  | ExitDecode => [EvRelease f]
  | ExitTopology => []
  | _ => [EvRelease (checkedForwarder sc f)]
  end.

(** The calls of a cycle that completes, up to the allocator. *)
Definition successCalls (h : Handler) (sc : Script) (messages : list MsgId)
  (f : FwdId) (w : World) : list Event :=
  let msgs := fst (sc_Decode sc messages) in
  forwardCalls h sc messages msgs f ++ [EvWait]
  ++ flat_map (encodeCalls h (promOn w) (checkedForwarder sc f)) msgs
  ++ [EvFlush] ++ map EvReset msgs.

(** Release and re-acquisition at the forwarder check. *)
Definition reacquireOps (sc : Script) (f : FwdId) : list RefOp :=
  match sc_State sc with
  | ForwarderStateClosed => [Release f; Acquire (sc_GetForwarder sc)]
  | ForwarderStateOpen => []
  end.

(** The events that can follow [Forward] within a cycle. *)
Definition tailEvent (e : Event) : Prop :=
  match e with
  | EvForward _ _ | EvGetForwarder _ _ | EvDecode _ | EvState _
  | EvConnIncr _ => False
  | _ => True
  end.

(** [allocSize] with the two package variables as arguments: [concurrent]
    is both the first capacity and the growth factor. *)
Definition allocSizeWith (base limit lm lastCount : Z) : Z :=
  if lm =? 0 then base
  else if (lm <? limit) && (lm =? lastCount) then lm * base
  else 0.

(** ** Sample inputs *)

Definition sampleWorld : World := mkWorld handlerOpening None 1 true 0 [].

Definition sampleClosedWorld : World :=
  mkWorld handlerClosed (Some "EOF"%string) 0 true 0 [].

Definition sampleHandler : Handler :=
  mkHandler 7 "cluster-a" CacheTypeRedis ":26379" true 42 (RedisProxyConn 42).

Definition sampleKeepHandler : Handler :=
  mkHandler 7 "cluster-a" CacheTypeRedis ":26379" false 42 (RedisProxyConn 42).

(** The second goroutine wins the swap, the first one comes in between
    its statements. *)
Definition sampleSchedule : list bool :=
  [false; false; true; false; false; false].

(** [Decode] fills the first [n] slots of the batch. *)
Definition decodeFirst (n : nat) (batch : list MsgId)
  : list MsgId * option error :=
  (firstn n batch, None).

Definition scriptOk (n : nat) : Script :=
  mkScript (decodeFirst n) ForwarderStateOpen 0%nat None (fun _ => None) None.

Definition scriptDecodeError : Script :=
  mkScript (fun _ => ([], Some "EOF"%string)) ForwarderStateOpen 0%nat None
           (fun _ => None) None.

Definition scriptTopology : Script :=
  mkScript (decodeFirst 2) ForwarderStateClosed 9%nat None (fun _ => None)
           None.

Definition scriptForwardError : Script :=
  mkScript (decodeFirst 2) ForwarderStateOpen 0%nat
           (Some "forward"%string) (fun _ => None) None.

(** The second [Encode] of the cycle fails. *)
Definition scriptEncodeError : Script :=
  mkScript (decodeFirst 2) ForwarderStateOpen 0%nat None
           (fun i => if Nat.eqb i 1 then Some "encode"%string else None) None.

Definition scriptFlushError : Script :=
  mkScript (decodeFirst 2) ForwarderStateOpen 0%nat None (fun _ => None)
           (Some "flush"%string).

Definition sampleBatch : list MsgId := [0%nat; 1%nat].

Definition sampleForwarder : FwdId := 5%nat.

(** The events each part of a cycle is made of. *)
Definition deferEvent (e : Event) : Prop :=
  match e with
  | EvRemoveConnection _ _ | EvPutMsgs _ | EvConnClose _ | EvConnDecr _ => True
  | _ => False
  end.

Definition encodeEvent (e : Event) : Prop :=
  match e with
  | EvEncode _ _ | EvMarkEnd _ | EvResetSubs _ | EvProxyTime _ _ => True
  | _ => False
  end.

Definition allocEvent (e : Event) : Prop :=
  match e with
  | EvPutMsgs _ | EvGetMsgs _ _ | EvWithWaitGroup _ => True
  | _ => False
  end.

Definition resetEvent (e : Event) : Prop :=
  match e with EvReset _ => True | _ => False end.

(** ** The whole connection *)

(** [Handle] starts [handle] as a goroutine; here the goroutine is run over
    its scripted cycles. *)
Definition Handle (h : Handler) (first : FwdId) (scripts : list Script)
  : M (option Exit) :=
  handle h first scripts.

(** A connection from construction on: [NewHandler], then [Handle]. *)
Definition serve (cc : ClusterConfig) (client : Z) (first : FwdId)
  (scripts : list Script) : M (GoResult (option Exit)) :=
  andThen (NewHandler cc client)
          (fun h => r <- Handle h first scripts ;; ret (Returned r)).

(** The loop of [handle] as a relation: cycles that go on, then either
    the scripted cycles run out or a cycle returns. *)
Inductive Run (h : Handler)
  : list Script -> list MsgId -> FwdId -> World -> option Exit -> World
    -> Prop :=
| RunOut (messages : list MsgId) (f : FwdId) (w : World) :
    Run h [] messages f w None w
| RunContinue (sc : Script) (rest : list Script) (messages : list MsgId)
    (f : FwdId) (w : World) (messages' : list MsgId) (f' : FwdId)
    (r : option Exit) (w' : World) :
    fst (cycle h sc messages f w) = Continue messages' f' ->
    Run h rest messages' f' (snd (cycle h sc messages f w)) r w' ->
    Run h (sc :: rest) messages f w r w'
| RunReturn (sc : Script) (rest : list Script) (messages : list MsgId)
    (f : FwdId) (w : World) (x : Exit) :
    fst (cycle h sc messages f w) = Return x ->
    Run h (sc :: rest) messages f w (Some x) (snd (cycle h sc messages f w)).

(** The allocator under sustained saturation: every cycle decodes as many
    messages as the batch holds. *)
Fixpoint saturate (n : nat) (msgs : list MsgId) (w : World)
  : list MsgId * World :=
  match n with
  | O => (msgs, w)
  | S n' =>
      let (msgs', w') := allocMaxConcurrent msgs (len msgs) w in
      saturate n' msgs' w'
  end.

(** The batches handed to [Decode], in call order. *)
Definition decoded (evs : list Event) : list (list MsgId) :=
  flat_map (fun e => match e with EvDecode b => [b] | _ => [] end) evs.

(** The batches drawn through [GetMsgs], in call order. *)
Definition gotBatches (evs : list Event) : list (list MsgId) :=
  flat_map (fun e => match e with EvGetMsgs _ b => [b] | _ => [] end) evs.

(** The [RemoveConnection] calls: cluster and connection. *)
Definition removed (evs : list Event) : list (Z * Z) :=
  flat_map (fun e => match e with
                     | EvRemoveConnection c i => [(c, i)]
                     | _ => []
                     end) evs.

(** The messages [MarkEnd] and [ResetSubs] were called on. *)
Definition markedEnd (evs : list Event) : list MsgId :=
  flat_map (fun e => match e with EvMarkEnd m => [m] | _ => [] end) evs.

Definition subsReset (evs : list Event) : list MsgId :=
  flat_map (fun e => match e with EvResetSubs m => [m] | _ => [] end) evs.

(** The telemetry calls. *)
Definition connIncrs (evs : list Event) : list string :=
  flat_map (fun e => match e with EvConnIncr n => [n] | _ => [] end) evs.

Definition connDecrs (evs : list Event) : list string :=
  flat_map (fun e => match e with EvConnDecr n => [n] | _ => [] end) evs.

Definition proxyTimes (evs : list Event) : list MsgId :=
  flat_map (fun e => match e with EvProxyTime _ m => [m] | _ => [] end) evs.

(** All messages forwarded, and all messages encoded, in call order. *)
Definition forwardedAll (evs : list Event) : list MsgId :=
  flat_map snd (forwarded evs).

Definition encodedAll (evs : list Event) : list MsgId :=
  map fst (encoded evs).

(** The events of the loop outside the close path: no deregistration, no
    close, no gauge update, and latency only when telemetry is [on]. *)
Definition loopEvent (on : bool) (e : Event) : Prop :=
  match e with
  | EvRemoveConnection _ _ | EvConnClose _ | EvConnDecr _ | EvConnIncr _ =>
      False
  | EvProxyTime _ _ => on = true
  | _ => True
  end.

(** The events of the close path and of the final release. *)
Definition closingEvent (e : Event) : Prop :=
  match e with
  | EvRemoveConnection _ _ | EvPutMsgs _ | EvConnClose _ | EvConnDecr _
  | EvRelease _ => True
  | _ => False
  end.

(** Two cycles that complete, the second only half filling its batch. *)
Definition sampleScripts : list Script := [scriptOk 2; scriptOk 1].

(** A failing call, read off the answers of the collaborators alone: the
    call that fails, the calls before it that had to succeed for the cycle
    to reach it, and the error it returns. *)
Inductive Failure (h : Handler) (sc : Script) (messages : list MsgId)
  : Exit -> error -> Prop :=
| DecodeFails (msgs : list MsgId) (e : error) :
    sc_Decode sc messages = (msgs, Some e) ->
    Failure h sc messages ExitDecode e
| ForwardFails (msgs : list MsgId) (e : error) :
    sc_Decode sc messages = (msgs, None) ->
    sc_State sc = ForwarderStateOpen \/ closeWhenChange h = false ->
    sc_Forward sc = Some e ->
    Failure h sc messages ExitForward e
| EncodeFails (msgs : list MsgId) (k : nat) (e : error) :
    sc_Decode sc messages = (msgs, None) ->
    sc_State sc = ForwarderStateOpen \/ closeWhenChange h = false ->
    sc_Forward sc = None ->
    (k < List.length msgs)%nat ->
    (forall j, (j < k)%nat -> sc_Encode sc j = None) ->
    sc_Encode sc k = Some e ->
    Failure h sc messages ExitEncode e
| FlushFails (msgs : list MsgId) (e : error) :
    sc_Decode sc messages = (msgs, None) ->
    sc_State sc = ForwarderStateOpen \/ closeWhenChange h = false ->
    sc_Forward sc = None ->
    (forall j, (j < List.length msgs)%nat -> sc_Encode sc j = None) ->
    sc_Flush sc = Some e ->
    Failure h sc messages ExitFlush e.

(** Every call but those [closeWithError] makes. *)
Definition notCloseCall (e : Event) : bool :=
  match e with
  | EvConnClose _ | EvConnDecr _ => false
  | _ => true
  end.

(** [w] with the handler open. *)
Definition opened (w : World) : World :=
  mkWorld handlerOpening (err w) (conns w) (promOn w) (poolNext w) (calls w).

(** * Properties *)

(** ** The allocator *)

Lemma len_seq (a n : nat) : len (seq a n) = Z.of_nat n.
Proof. unfold len. now rewrite length_seq. Qed.

Lemma forEach_emit_frame {A} (l : list A) (ev : A -> Event) (w : World) :
  forEach l (fun x => emit (ev x)) w
  = (tt, mkWorld (closed w) (err w) (conns w) (promOn w) (poolNext w)
                 (calls w ++ map ev l)).
Proof.
  revert w. induction l as [|x l IH]; intros w; simpl.
  - unfold ret. rewrite app_nil_r. now destruct w.
  - unfold bind, emit. simpl. rewrite IH. simpl.
    now rewrite <- app_assoc.
Qed.

(** What one call of the allocator does, case by case. *)
Lemma allocMaxConcurrent_run (msgs : list MsgId) (lastCount : Z) (w : World) :
  allocMaxConcurrent msgs lastCount w =
  let alloc := allocSize (len msgs) lastCount in
  if 0 <? alloc then
    let batch := seq (poolNext w) (Z.to_nat alloc) in
    (batch, mkWorld (closed w) (err w) (conns w) (promOn w)
                    (poolNext w + Z.to_nat alloc)%nat
                    (calls w ++ EvPutMsgs msgs :: EvGetMsgs alloc batch
                             :: map EvWithWaitGroup batch))
  else (msgs, w).
Proof.
  unfold allocMaxConcurrent. cbv zeta.
  destruct (0 <? allocSize (len msgs) lastCount); [|reflexivity].
  unfold bind, PutMsgs, emit, GetMsgs, ret. simpl.
  rewrite (forEach_emit_frame _ EvWithWaitGroup). simpl.
  now rewrite <- !app_assoc.
Qed.

Lemma allocMaxConcurrent_len (msgs : list MsgId) (lastCount : Z) (w : World) :
  len (fst (allocMaxConcurrent msgs lastCount w)) =
  if 0 <? allocSize (len msgs) lastCount
  then allocSize (len msgs) lastCount else len msgs.
Proof.
  rewrite allocMaxConcurrent_run. cbv zeta.
  destruct (0 <? allocSize (len msgs) lastCount) eqn:E; simpl; [|reflexivity].
  rewrite len_seq. apply Z.ltb_lt in E. lia.
Qed.

Lemma allocMaxConcurrent_frame (msgs : list MsgId) (lastCount : Z) (w : World) :
  let w' := snd (allocMaxConcurrent msgs lastCount w) in
  closed w' = closed w /\ err w' = err w /\ conns w' = conns w
  /\ promOn w' = promOn w.
Proof.
  rewrite allocMaxConcurrent_run. cbv zeta.
  destruct (0 <? allocSize (len msgs) lastCount); simpl; auto.
Qed.

Lemma allocSize_capacities (lm lastCount : Z) :
  In lm capacities ->
  In (if 0 <? allocSize lm lastCount then allocSize lm lastCount else lm)
     capacities.
Proof.
  intros H. unfold allocSize. generalize (lm =? lastCount). intros b.
  unfold capacities in H. simpl in H.
  repeat (destruct H as [H|H];
          [subst lm; destruct b; vm_compute; tauto|]).
  contradiction.
Qed.

(** The capacities are closed under the allocator, from the nil batch on. *)
Lemma allocMaxConcurrent_capacities (msgs : list MsgId) (lastCount : Z)
  (w : World) :
  msgs = [] \/ In (len msgs) capacities ->
  In (len (fst (allocMaxConcurrent msgs lastCount w))) capacities.
Proof.
  intros H. rewrite allocMaxConcurrent_len.
  destruct H as [->|H].
  - unfold allocSize, capacities. simpl. auto.
  - now apply allocSize_capacities.
Qed.

Lemma capacities_bound (n : Z) : In n capacities -> 0 < n <= maxConcurrent.
Proof.
  unfold capacities, maxConcurrent. simpl.
  intros H. repeat (destruct H as [<-|H]; [lia|]). contradiction.
Qed.

Lemma allocCycles_capacities (counts : list Z) :
  forall (msgs : list MsgId) (w : World),
    msgs = [] \/ In (len msgs) capacities ->
    Forall (fun batch => In (len batch) capacities) (allocCycles counts msgs w).
Proof.
  induction counts as [|c counts IH]; intros msgs w H; simpl.
  - constructor.
  - pose proof (allocMaxConcurrent_capacities msgs c w H) as Hc.
    destruct (allocMaxConcurrent msgs c w) as [msgs' w'] eqn:E. simpl in Hc.
    constructor; [exact Hc|]. apply IH. now right.
Qed.

(** C5: over any sequence of cycles, starting from the nil batch, no batch
    the allocator returns is larger than [maxConcurrent]; the first call
    returns a batch of [concurrent] messages; a later call either grows the
    batch by the factor [concurrent], and then the batch it was given was
    below [maxConcurrent] and exactly as long as the decoded count, or it
    returns the very batch it was given and touches nothing. *)
Theorem allocMaxConcurrent_bounded_growth :
  (forall (counts : list Z) (w : World),
      Forall (fun batch => len batch <= maxConcurrent)
             (allocCycles counts [] w))
  /\ (forall (lastCount : Z) (w : World),
         len (fst (allocMaxConcurrent [] lastCount w)) = concurrent)
  /\ (forall (m : MsgId) (ms : list MsgId) (lastCount : Z) (w : World),
         let msgs := m :: ms in
         let r := allocMaxConcurrent msgs lastCount w in
         (len msgs = lastCount /\ len msgs < maxConcurrent
          /\ len (fst r) = len msgs * concurrent)
         \/ ((len msgs <> lastCount \/ maxConcurrent <= len msgs)
             /\ r = (msgs, w))).
Proof.
  split; [|split].
  - intros counts w.
    eapply Forall_impl; [|apply allocCycles_capacities; now left].
    intros batch H. now apply capacities_bound.
  - intros lastCount w. now rewrite allocMaxConcurrent_len.
  - intros m ms lastCount w msgs r.
    assert (Hpos : 0 < len msgs) by (unfold msgs, len; simpl; lia).
    subst r. rewrite allocMaxConcurrent_len, allocMaxConcurrent_run.
    cbv zeta. unfold allocSize.
    destruct (len msgs =? 0) eqn:E0; [apply Z.eqb_eq in E0; lia|].
    destruct (len msgs <? maxConcurrent) eqn:E1;
      destruct (len msgs =? lastCount) eqn:E2; cbn [andb];
      try change (0 <? 0) with false; cbv iota.
    + apply Z.ltb_lt in E1. apply Z.eqb_eq in E2.
      assert (E3 : (0 <? len msgs * concurrent) = true)
        by (apply Z.ltb_lt; unfold concurrent; lia).
      rewrite E3. left. auto.
    + apply Z.eqb_neq in E2. right. auto.
    + apply Z.ltb_ge in E1. right. auto.
    + apply Z.ltb_ge in E1. right. auto.
Qed.

(** The example of the specification: 2, then 4 after a saturated cycle,
    then 4 again after a partial one. *)
Example allocCycles_2_4_4 :
  map len (allocCycles [0; 2; 1] [] sampleWorld) = [2; 4; 4].
Proof. reflexivity. Qed.

(** ** Construction *)

Lemma NewHandler_supported_increments (cc : ClusterConfig) (client : Z)
  (w : World) :
  (forall tag, cc_CacheType cc <> CacheTypeOther tag) ->
  exists h, fst (NewHandler cc client w) = Returned h
            /\ calls (snd (NewHandler cc client w))
               = calls w ++ [EvConnIncr (cc_Name cc)].
Proof.
  intros H. unfold NewHandler, bind, newStruct, emit, ret.
  destruct (cc_CacheType cc) eqn:E; simpl; eauto.
  now elim (H tag).
Qed.

(** C8: with a cache type none of the four cases matches, [NewHandler]
    panics with [ErrNoSupportCacheType]: it returns no handler, it has made
    no call at all, [prom.ConnIncr] included, the proxy counter is
    untouched, and nothing that is sequenced after it (a [Handle] call,
    any message processing) runs. *)
Theorem NewHandler_unsupported_panics :
  forall (id : Z) (name addr tag : string) (policy : bool) (client : Z)
         (w : World),
    let cc := mkClusterConfig id name (CacheTypeOther tag) addr policy in
    let r := NewHandler cc client w in
    fst r = Panicked ErrNoSupportCacheType
    /\ calls (snd r) = calls w
    /\ count isConnIncr (since w (snd r)) = 0%nat
    /\ conns (snd r) = conns w
    /\ forall (B : Type) (k : Handler -> M (GoResult B)),
         andThen (NewHandler cc client) k w
         = (Panicked ErrNoSupportCacheType, snd r).
Proof.
  intros id name addr tag policy client w cc r. subst r cc.
  unfold andThen, NewHandler, bind, newStruct, ret, since. simpl.
  rewrite skipn_all. repeat split; reflexivity.
Qed.

(** ** The close path *)

Lemma wrap32_small (z : Z) : - 2 ^ 31 <= z < 2 ^ 31 -> wrap32 z = z.
Proof.
  intros H. unfold wrap32. rewrite Z.mod_small; lia.
Qed.

Lemma since_app (w w' : World) (evs : list Event) :
  calls w' = calls w ++ evs -> since w w' = evs.
Proof.
  intros H. unfold since. rewrite H, skipn_app, skipn_all, Nat.sub_diag.
  reflexivity.
Qed.

Lemma closeWithError_opening (h : Handler) (e : option error) (w : World) :
  closed w = handlerOpening ->
  closeWithError h e w = (tt, closeProgress h e PcDone w).
Proof.
  intros H. unfold closeWithError, bind, CompareAndSwapInt32_closed.
  rewrite H. simpl. unfold closeCalls, getPromOn, when.
  destruct (promOn w); simpl; unfold emit, ret; simpl;
    rewrite <- ?app_assoc; reflexivity.
Qed.

Lemma closeWithError_closed (h : Handler) (e : option error) (w : World) :
  closed w <> handlerOpening -> closeWithError h e w = (tt, w).
Proof.
  intros H. unfold closeWithError, bind, CompareAndSwapInt32_closed.
  apply Z.eqb_neq in H. now rewrite H.
Qed.

(** [closeWithError] is its five statements run by one goroutine. *)
Lemma closeWithError_closeSteps (h : Handler) (e : option error) (w : World) :
  closeSteps h e 5 PcCompareAndSwap w = (PcDone, snd (closeWithError h e w)).
Proof.
  unfold closeWithError, closeSteps, closeStep, bind,
    CompareAndSwapInt32_closed.
  destruct (closed w =? handlerOpening); simpl; [|reflexivity].
  destruct (promOn w); reflexivity.
Qed.

(** The winner advances along [closeProgress]. *)
Lemma closeStep_winner (h : Handler) (e : option error) (pc : ClosePC)
  (w : World) :
  startedPC pc = true ->
  exists pc', closeStep h e pc (closeProgress h e pc w)
              = (pc', closeProgress h e pc' w)
              /\ startedPC pc' = true.
Proof.
  intros H. destruct pc; try discriminate H; simpl;
    unfold bind, setErr, emit, AddInt32_conns, getPromOn, ret; simpl.
  - exists PcConnClose. auto.
  - exists PcAddConns. auto.
  - exists PcConnDecr. auto.
  - exists PcDone. simpl. unfold closeCalls, when.
    destruct (promOn w); simpl; unfold emit, ret; simpl;
      rewrite <- ?app_assoc; auto.
  - exists PcDone. auto.
Qed.

(** Every other goroutine finds the handler closed and does nothing. *)
Lemma closeStep_loser (h : Handler) (e e' : option error) (pc pcw : ClosePC)
  (w : World) :
  idlePC pc = true -> startedPC pcw = true ->
  closeStep h e' pc (closeProgress h e pcw w)
  = (PcDone, closeProgress h e pcw w).
Proof.
  intros H Hw. destruct pc; try discriminate H; simpl; [|reflexivity].
  unfold bind, CompareAndSwapInt32_closed.
  destruct pcw; try discriminate Hw; reflexivity.
Qed.

Lemma interleave_first_won (h : Handler) (e1 e2 : option error) (w0 : World)
  (sched : list bool) :
  forall pc1 pc2,
    startedPC pc1 = true -> idlePC pc2 = true ->
    exists pc1' pc2',
      interleave h e1 e2 sched (pc1, pc2) (closeProgress h e1 pc1 w0)
      = ((pc1', pc2'), closeProgress h e1 pc1' w0)
      /\ startedPC pc1' = true.
Proof.
  induction sched as [|[|] sched IH]; intros pc1 pc2 H1 H2; simpl.
  - exists pc1, pc2. auto.
  - destruct (closeStep_winner h e1 pc1 w0 H1) as (pc1' & E & H1').
    unfold bind. simpl. rewrite E. apply IH; assumption.
  - unfold bind. simpl.
    rewrite (closeStep_loser h e1 e2 pc2 pc1 w0 H2 H1). apply IH; auto.
Qed.

Lemma interleave_second_won (h : Handler) (e1 e2 : option error) (w0 : World)
  (sched : list bool) :
  forall pc1 pc2,
    idlePC pc1 = true -> startedPC pc2 = true ->
    exists pc1' pc2',
      interleave h e1 e2 sched (pc1, pc2) (closeProgress h e2 pc2 w0)
      = ((pc1', pc2'), closeProgress h e2 pc2' w0)
      /\ startedPC pc2' = true.
Proof.
  induction sched as [|[|] sched IH]; intros pc1 pc2 H1 H2; simpl.
  - exists pc1, pc2. auto.
  - unfold bind. simpl.
    rewrite (closeStep_loser h e2 e1 pc1 pc2 w0 H1 H2). apply IH; auto.
  - destruct (closeStep_winner h e2 pc2 w0 H2) as (pc2' & E & H2').
    unfold bind. simpl. rewrite E. apply IH; assumption.
Qed.

Lemma closeStep_first (h : Handler) (e : option error) (w : World) :
  closed w = handlerOpening ->
  closeStep h e PcCompareAndSwap w = (PcSetErr, closeProgress h e PcSetErr w).
Proof.
  intros H. simpl. unfold bind, CompareAndSwapInt32_closed. now rewrite H.
Qed.

Lemma closeProgress_done (h : Handler) (e : option error) (w : World) :
  let w' := closeProgress h e PcDone w in
  closed w' = handlerClosed /\ err w' = e /\ conns w' = wrap32 (conns w - 1)
  /\ since w w' = closeCalls h (promOn w).
Proof.
  simpl. repeat split. now apply since_app.
Qed.

(** C2: two invocations of [closeWithError] on an open handler, their
    statements interleaved in any order: once both have finished, the
    handler is closed, [h.err] is the error of the invocation that ran
    first, [h.p.conns] went down by one, the connection was closed once,
    and any further invocation leaves the world as it is.  Run one after
    the other, the second invocation changes nothing. *)
Theorem closeWithError_idempotent :
  forall (h : Handler) (e1 e2 : option error) (sched : list bool) (w : World),
    closed w = handlerOpening ->
    fst (interleave h e1 e2 sched (PcCompareAndSwap, PcCompareAndSwap) w)
    = (PcDone, PcDone) ->
    let w' :=
      snd (interleave h e1 e2 sched (PcCompareAndSwap, PcCompareAndSwap) w) in
    closed w' = handlerClosed
    /\ err w' = firstError e1 e2 sched
    /\ conns w' = wrap32 (conns w - 1)
    /\ since w w' = closeCalls h (promOn w)
    /\ (forall e3, closeWithError h e3 w' = (tt, w'))
    /\ (closeWithError h e1 ;;; closeWithError h e2) w
       = closeWithError h e1 w.
Proof.
  intros h e1 e2 sched w Hopen Hdone w'.
  assert (Hw' : w' = closeProgress h (firstError e1 e2 sched) PcDone w).
  { subst w'. destruct sched as [|[|] sched];
      cbn [interleave fst snd firstError] in *.
    - discriminate Hdone.
    - unfold bind in *. rewrite (closeStep_first h e1 w Hopen) in *.
      destruct (interleave_first_won h e1 e2 w sched PcSetErr
                  PcCompareAndSwap eq_refl eq_refl) as (p1 & p2 & E & _).
      rewrite E in *. cbn [fst snd] in *.
      now inversion Hdone; subst.
    - unfold bind in *. rewrite (closeStep_first h e2 w Hopen) in *.
      destruct (interleave_second_won h e1 e2 w sched PcCompareAndSwap
                  PcSetErr eq_refl eq_refl) as (p1 & p2 & E & _).
      rewrite E in *. cbn [fst snd] in *.
      now inversion Hdone; subst. }
  rewrite Hw'.
  destruct (closeProgress_done h (firstError e1 e2 sched) w)
    as (Hc & He & Hn & Hs).
  split; [exact Hc|]. split; [exact He|]. split; [exact Hn|].
  split; [exact Hs|]. split.
  - intros e3. apply closeWithError_closed. rewrite Hc. discriminate.
  - unfold bind. rewrite (closeWithError_opening h e1 w Hopen).
    apply closeWithError_closed. simpl. discriminate.
Qed.

Lemma closeWithError_idempotent_witness :
  let w' := snd (interleave sampleHandler (Some "EOF"%string)
                   (Some "shutdown"%string) sampleSchedule
                   (PcCompareAndSwap, PcCompareAndSwap) sampleWorld) in
  closed w' = handlerClosed
  /\ err w' = Some "shutdown"%string
  /\ conns w' = 0.
Proof.
  pose proof (closeWithError_idempotent sampleHandler (Some "EOF"%string)
                (Some "shutdown"%string) sampleSchedule sampleWorld
                eq_refl eq_refl) as H.
  cbv zeta in H. destruct H as (Hc & He & Hn & _).
  exact (conj Hc (conj He Hn)).
Defined.

(** The claim C3 makes about deregistration fails: on a handler that is
    already closed, [deferHandle] still calls [RemoveConnection]. *)
Lemma deferHandle_deregisters_again :
  ~ (forall (h : Handler) (msgs : list MsgId) (e : option error) (w : World),
        closed w = handlerClosed ->
        count isRemoveConnection (since w (snd (deferHandle h msgs e w)))
        = 0%nat).
Proof.
  intros H.
  specialize (H sampleHandler [] (Some "EOF"%string) sampleClosedWorld
                eq_refl).
  vm_compute in H. discriminate H.
Qed.

Lemma deferHandle_run (h : Handler) (msgs : list MsgId) (e : option error)
  (w : World) :
  deferHandle h msgs e w =
  closeWithError h e
    (mkWorld (closed w) (err w) (conns w) (promOn w) (poolNext w)
       (calls w ++ [EvRemoveConnection (ClusterID h) (conn h);
                    EvPutMsgs msgs])).
Proof.
  unfold deferHandle, bind, PutMsgs, emit. simpl.
  now rewrite <- app_assoc.
Qed.

(** C3, as the code has it: [closeWithError] records the error, closes the
    raw connection and decrements the counters on an open handler only; on
    a handler that is not open it changes nothing and makes no call.
    [deferHandle] deregisters the connection and returns the batch to the
    pool on every invocation, before the guard, whatever the state of the
    handler, and makes no other call than those of [closeWithError]. *)
Theorem closeWithError_side_effects_once :
  forall (h : Handler) (msgs : list MsgId) (e : option error) (w : World),
    (closed w = handlerOpening ->
     let w' := snd (closeWithError h e w) in
     closed w' = handlerClosed /\ err w' = e
     /\ conns w' = wrap32 (conns w - 1)
     /\ since w w' = closeCalls h (promOn w))
    /\ (closed w <> handlerOpening -> closeWithError h e w = (tt, w))
    /\ since w (snd (deferHandle h msgs e w))
       = [EvRemoveConnection (ClusterID h) (conn h); EvPutMsgs msgs]
         ++ (if closed w =? handlerOpening
             then closeCalls h (promOn w) else []).
Proof.
  intros h msgs e w. split; [|split].
  - intros Hopen. rewrite (closeWithError_opening h e w Hopen).
    apply closeProgress_done.
  - apply closeWithError_closed.
  - rewrite deferHandle_run. apply since_app.
    destruct (closed w =? handlerOpening) eqn:E.
    + apply Z.eqb_eq in E. rewrite closeWithError_opening by exact E.
      simpl. now rewrite <- app_assoc.
    + apply Z.eqb_neq in E. rewrite closeWithError_closed by exact E.
      reflexivity.
Qed.

Lemma closeWithError_side_effects_once_witness :
  (let w' := snd (closeWithError sampleHandler (Some "EOF"%string)
                    sampleWorld) in
   closed w' = handlerClosed /\ err w' = Some "EOF"%string
   /\ conns w' = 0)
  /\ closeWithError sampleHandler None sampleClosedWorld
     = (tt, sampleClosedWorld).
Proof.
  destruct (closeWithError_side_effects_once sampleHandler []
              (Some "EOF"%string) sampleWorld) as (Hfirst & _ & _).
  destruct (closeWithError_side_effects_once sampleHandler [] None
              sampleClosedWorld) as (_ & Hlater & _).
  split.
  - destruct (Hfirst eq_refl) as (Hc & He & Hn & _).
    exact (conj Hc (conj He Hn)).
  - apply Hlater. discriminate.
Defined.

(** ** The cycle, path by path *)

Lemma addCalls_addCalls (w : World) (a b : list Event) :
  addCalls (addCalls w a) b = addCalls w (a ++ b).
Proof. unfold addCalls. simpl. now rewrite <- app_assoc. Qed.

Lemma emit_addCalls (e : Event) (w : World) (evs : list Event) :
  emit e (addCalls w evs) = (tt, addCalls w (evs ++ [e])).
Proof. unfold emit, addCalls. simpl. now rewrite <- app_assoc. Qed.

Lemma promOn_addCalls (w : World) (evs : list Event) :
  promOn (addCalls w evs) = promOn w.
Proof. reflexivity. Qed.

Lemma emit_run (e : Event) (w : World) : emit e w = (tt, addCalls w [e]).
Proof. reflexivity. Qed.

Lemma deferHandle_exit (h : Handler) (msgs : list MsgId) (e : option error)
  (w : World) (before : list Event) :
  deferHandle h msgs e (addCalls w before)
  = (tt, exitWorld h msgs e w before []).
Proof.
  rewrite deferHandle_run. unfold exitWorld, deferCalls, closeEvents.
  cbv zeta. destruct (closed w =? handlerOpening) eqn:E.
  - apply Z.eqb_eq in E. rewrite closeWithError_opening by exact E.
    simpl. rewrite <- !app_assoc. simpl. now rewrite app_nil_r.
  - apply Z.eqb_neq in E. rewrite closeWithError_closed by exact E.
    unfold addCalls. simpl. now rewrite <- !app_assoc.
Qed.

Lemma emit_exit (h : Handler) (msgs : list MsgId) (e : option error)
  (w : World) (before after : list Event) (ev : Event) :
  emit ev (exitWorld h msgs e w before after)
  = (tt, exitWorld h msgs e w before (after ++ [ev])).
Proof.
  unfold exitWorld, emit, addCalls. cbv zeta.
  destruct (closed w =? handlerOpening);
    cbn [closed err conns promOn poolNext calls];
    rewrite !app_assoc; reflexivity.
Qed.

Lemma encodeLoop_run (h : Handler) (sc : Script) (f : FwdId)
  (msgs : list MsgId) :
  forall (i : nat) (w : World),
    encodeLoop h sc f i msgs w
    = (snd (encodeTrace h (promOn w) sc f i msgs),
       addCalls w (fst (encodeTrace h (promOn w) sc f i msgs))).
Proof.
  induction msgs as [|msg rest IH]; intros i w; simpl.
  - unfold ret, addCalls. rewrite app_nil_r. now destruct w.
  - unfold bind. rewrite emit_run.
    destruct (sc_Encode sc i) as [e|]; [reflexivity|].
    rewrite !emit_addCalls. unfold getPromOn, when. simpl.
    specialize (IH (S i)).
    destruct (encodeTrace h (promOn w) sc f (S i) rest) as [evs r] eqn:E.
    unfold encodeCalls.
    destruct (promOn w) eqn:On.
    + rewrite emit_addCalls, IH. simpl. rewrite On, E. simpl.
      rewrite addCalls_addCalls. simpl. reflexivity.
    + unfold ret. rewrite IH. simpl. rewrite On, E. simpl.
      rewrite addCalls_addCalls. simpl. reflexivity.
Qed.

Lemma encodeTrace_ok (h : Handler) (on : bool) (sc : Script) (f : FwdId)
  (msgs : list MsgId) :
  forall i,
    snd (encodeTrace h on sc f i msgs) = None ->
    fst (encodeTrace h on sc f i msgs) = flat_map (encodeCalls h on f) msgs.
Proof.
  induction msgs as [|msg rest IH]; intros i H; simpl in *; [reflexivity|].
  destruct (sc_Encode sc i); [discriminate H|].
  specialize (IH (S i)).
  destruct (encodeTrace h on sc f (S i) rest) as [evs r]. simpl in *.
  now rewrite IH.
Qed.

(** What the check of lines 103-113 does when the cycle goes on. *)
Lemma checkForwarder_passes (h : Handler) (sc : Script)
  (messages : list MsgId) (e : option error) (f : FwdId) (w : World)
  (before : list Event) :
  sc_State sc = ForwarderStateOpen \/ closeWhenChange h = false ->
  checkForwarder h sc messages e f (addCalls w before)
  = (Some (checkedForwarder sc f), addCalls w (before ++ checkCalls h sc f)).
Proof.
  intros H. unfold checkForwarder, checkCalls, checkedForwarder, bind.
  rewrite emit_addCalls.
  destruct (sc_State sc); cbn [ForwarderState_eqb].
  - reflexivity.
  - destruct H as [H|H]; [discriminate H|]. rewrite H.
    rewrite !emit_addCalls, <- !app_assoc. reflexivity.
Qed.

Lemma checkForwarder_closes (h : Handler) (sc : Script)
  (messages : list MsgId) (e : option error) (f : FwdId) (w : World)
  (before : list Event) :
  sc_State sc = ForwarderStateClosed -> closeWhenChange h = true ->
  checkForwarder h sc messages e f (addCalls w before)
  = (None, exitWorld h messages e w
             (before ++ [EvState f; EvRelease f]) []).
Proof.
  intros Hs Hp. unfold checkForwarder, bind.
  rewrite emit_addCalls, Hs, Hp. cbn [ForwarderState_eqb].
  rewrite emit_addCalls, deferHandle_exit, <- app_assoc. reflexivity.
Qed.

Lemma cycle_decode_error (h : Handler) (sc : Script) (messages : list MsgId)
  (f : FwdId) (w : World) (msgs : list MsgId) (e : error) :
  sc_Decode sc messages = (msgs, Some e) ->
  cycle h sc messages f w
  = (Return ExitDecode,
     exitWorld h messages (Some e) w [EvDecode messages] [EvRelease f]).
Proof.
  intros Hd. unfold cycle, bind. rewrite emit_run, Hd.
  rewrite deferHandle_exit, emit_exit. reflexivity.
Qed.

Lemma cycle_topology_closed (h : Handler) (sc : Script)
  (messages : list MsgId) (f : FwdId) (w : World) (msgs : list MsgId) :
  sc_Decode sc messages = (msgs, None) ->
  sc_State sc = ForwarderStateClosed -> closeWhenChange h = true ->
  cycle h sc messages f w
  = (Return ExitTopology,
     exitWorld h messages None w
       [EvDecode messages; EvState f; EvRelease f] []).
Proof.
  intros Hd Hs Hp. unfold cycle, bind. rewrite emit_run, Hd.
  rewrite (checkForwarder_closes h sc messages None f w _ Hs Hp).
  reflexivity.
Qed.

Lemma cycle_forward_error (h : Handler) (sc : Script) (messages : list MsgId)
  (f : FwdId) (w : World) (msgs : list MsgId) (e : error) :
  sc_Decode sc messages = (msgs, None) ->
  sc_State sc = ForwarderStateOpen \/ closeWhenChange h = false ->
  sc_Forward sc = Some e ->
  cycle h sc messages f w
  = (Return ExitForward,
     exitWorld h messages (Some e) w (forwardCalls h sc messages msgs f)
       [EvRelease (checkedForwarder sc f)]).
Proof.
  intros Hd Hs Hf. unfold cycle, bind. rewrite emit_run, Hd.
  rewrite (checkForwarder_passes h sc messages None f w _ Hs).
  rewrite emit_addCalls, Hf, deferHandle_exit, emit_exit.
  unfold forwardCalls. rewrite <- !app_assoc. reflexivity.
Qed.

Lemma cycle_encode_error (h : Handler) (sc : Script) (messages : list MsgId)
  (f : FwdId) (w : World) (msgs : list MsgId) (e : error) :
  sc_Decode sc messages = (msgs, None) ->
  sc_State sc = ForwarderStateOpen \/ closeWhenChange h = false ->
  sc_Forward sc = None ->
  snd (encodeTrace h (promOn w) sc (checkedForwarder sc f) 0 msgs) = Some e ->
  cycle h sc messages f w
  = (Return ExitEncode,
     exitWorld h messages (Some e) w
       (forwardCalls h sc messages msgs f ++ [EvWait]
        ++ fst (encodeTrace h (promOn w) sc (checkedForwarder sc f) 0 msgs)
        ++ [EvFlush])
       [EvRelease (checkedForwarder sc f)]).
Proof.
  intros Hd Hs Hf He. unfold cycle, bind. rewrite emit_run, Hd.
  rewrite (checkForwarder_passes h sc messages None f w _ Hs).
  rewrite emit_addCalls, Hf, emit_addCalls, encodeLoop_run.
  rewrite promOn_addCalls, He, addCalls_addCalls, emit_addCalls.
  rewrite deferHandle_exit, emit_exit.
  unfold forwardCalls. rewrite <- !app_assoc. reflexivity.
Qed.

Lemma cycle_flush_error (h : Handler) (sc : Script) (messages : list MsgId)
  (f : FwdId) (w : World) (msgs : list MsgId) (e : error) :
  sc_Decode sc messages = (msgs, None) ->
  sc_State sc = ForwarderStateOpen \/ closeWhenChange h = false ->
  sc_Forward sc = None ->
  snd (encodeTrace h (promOn w) sc (checkedForwarder sc f) 0 msgs) = None ->
  sc_Flush sc = Some e ->
  cycle h sc messages f w
  = (Return ExitFlush,
     exitWorld h messages (Some e) w
       (forwardCalls h sc messages msgs f ++ [EvWait]
        ++ flat_map (encodeCalls h (promOn w) (checkedForwarder sc f)) msgs
        ++ [EvFlush])
       [EvRelease (checkedForwarder sc f)]).
Proof.
  intros Hd Hs Hf He Hfl. unfold cycle, bind. rewrite emit_run, Hd.
  rewrite (checkForwarder_passes h sc messages None f w _ Hs).
  rewrite emit_addCalls, Hf, emit_addCalls, encodeLoop_run.
  rewrite promOn_addCalls, He, (encodeTrace_ok _ _ _ _ _ _ He).
  rewrite addCalls_addCalls, emit_addCalls, Hfl.
  rewrite deferHandle_exit, emit_exit.
  unfold forwardCalls. rewrite <- !app_assoc. reflexivity.
Qed.

Lemma cycle_success (h : Handler) (sc : Script) (messages : list MsgId)
  (f : FwdId) (w : World) (msgs : list MsgId) :
  sc_Decode sc messages = (msgs, None) ->
  sc_State sc = ForwarderStateOpen \/ closeWhenChange h = false ->
  sc_Forward sc = None ->
  snd (encodeTrace h (promOn w) sc (checkedForwarder sc f) 0 msgs) = None ->
  sc_Flush sc = None ->
  cycle h sc messages f w
  = (let (messages', w') :=
       allocMaxConcurrent messages (len msgs)
         (addCalls w
            (forwardCalls h sc messages msgs f ++ [EvWait]
             ++ flat_map (encodeCalls h (promOn w) (checkedForwarder sc f))
                         msgs
             ++ [EvFlush] ++ map EvReset msgs)) in
     (Continue messages' (checkedForwarder sc f), w')).
Proof.
  intros Hd Hs Hf He Hfl. unfold cycle, bind. rewrite emit_run, Hd.
  rewrite (checkForwarder_passes h sc messages None f w _ Hs).
  rewrite emit_addCalls, Hf, emit_addCalls, encodeLoop_run.
  rewrite promOn_addCalls, He, (encodeTrace_ok _ _ _ _ _ _ He).
  rewrite addCalls_addCalls, emit_addCalls, Hfl.
  rewrite (forEach_emit_frame _ EvReset).
  change (mkWorld ?a ?b ?c ?d ?p (calls ?x ++ ?l)) with (addCalls x l).
  rewrite addCalls_addCalls. unfold forwardCalls.
  rewrite <- !app_assoc. reflexivity.
Qed.

(** [cycle] follows exactly one rule of [CyclePath]. *)
Lemma cycle_path (h : Handler) (sc : Script) (messages : list MsgId)
  (f : FwdId) (w : World) :
  CyclePath h sc messages f w (fst (cycle h sc messages f w))
            (snd (cycle h sc messages f w)).
Proof.
  destruct (sc_Decode sc messages) as [msgs [e|]] eqn:Hd.
  { rewrite (cycle_decode_error h sc messages f w msgs e Hd).
    now apply PathDecodeError with msgs. }
  assert (Hcheck : (sc_State sc = ForwarderStateClosed
                    /\ closeWhenChange h = true)
                   \/ (sc_State sc = ForwarderStateOpen
                       \/ closeWhenChange h = false)).
  { destruct (sc_State sc); destruct (closeWhenChange h); auto. }
  destruct Hcheck as [[Hs Hp]|Hs].
  { rewrite (cycle_topology_closed h sc messages f w msgs Hd Hs Hp).
    now apply PathTopologyClosed with msgs. }
  destruct (sc_Forward sc) as [e|] eqn:Hf.
  { rewrite (cycle_forward_error h sc messages f w msgs e Hd Hs Hf).
    now apply PathForwardError. }
  destruct (snd (encodeTrace h (promOn w) sc (checkedForwarder sc f) 0 msgs))
    as [e|] eqn:He.
  { rewrite (cycle_encode_error h sc messages f w msgs e Hd Hs Hf He).
    now apply PathEncodeError. }
  destruct (sc_Flush sc) as [e|] eqn:Hfl.
  { rewrite (cycle_flush_error h sc messages f w msgs e Hd Hs Hf He Hfl).
    now apply PathFlushError. }
  rewrite (cycle_success h sc messages f w msgs Hd Hs Hf He Hfl).
  pose proof (PathSuccess h sc messages f w msgs Hd Hs Hf He Hfl) as P.
  cbv zeta in P.
  destruct (allocMaxConcurrent messages (len msgs) _) as [messages' w'].
  exact P.
Qed.

(** *** The world a returning cycle leaves *)

Lemma exitWorld_since (h : Handler) (messages : list MsgId) (e : option error)
  (w : World) (before after : list Event) :
  since w (exitWorld h messages e w before after)
  = before ++ deferCalls h messages w ++ after.
Proof.
  apply since_app. unfold exitWorld. cbv zeta.
  destruct (closed w =? handlerOpening); reflexivity.
Qed.

Lemma exitWorld_opening (h : Handler) (messages : list MsgId)
  (e : option error) (w : World) (before after : list Event) :
  closed w = handlerOpening ->
  closed (exitWorld h messages e w before after) = handlerClosed
  /\ err (exitWorld h messages e w before after) = e
  /\ conns (exitWorld h messages e w before after) = wrap32 (conns w - 1).
Proof.
  intros H. unfold exitWorld. cbv zeta. rewrite H. simpl. auto.
Qed.

Lemma exitWorld_closed (h : Handler) (messages : list MsgId)
  (e : option error) (w : World) (before after : list Event) :
  closed w <> handlerOpening ->
  closed (exitWorld h messages e w before after) = closed w
  /\ err (exitWorld h messages e w before after) = err w
  /\ conns (exitWorld h messages e w before after) = conns w.
Proof.
  intros H. apply Z.eqb_neq in H. unfold exitWorld. cbv zeta. rewrite H.
  simpl. auto.
Qed.

Lemma allocMaxConcurrent_calls (msgs : list MsgId) (lastCount : Z) (w : World) :
  calls (snd (allocMaxConcurrent msgs lastCount w))
  = calls w ++ allocCalls msgs lastCount (poolNext w).
Proof.
  rewrite allocMaxConcurrent_run. unfold allocCalls. cbv zeta.
  destruct (0 <? allocSize (len msgs) lastCount); simpl;
    [reflexivity | now rewrite app_nil_r].
Qed.

(** *** Which events each part of a cycle is made of *)

Lemma flat_map_silent {C} (phi : Event -> list C) (P : Event -> Prop)
  (evs : list Event) :
  Forall P evs -> (forall e, P e -> phi e = []) -> flat_map phi evs = [].
Proof.
  intros H Hphi. induction H as [|e evs He _ IH]; simpl; [reflexivity|].
  now rewrite (Hphi e He), IH.
Qed.

Lemma deferCalls_events (h : Handler) (msgs : list MsgId) (w : World) :
  Forall deferEvent (deferCalls h msgs w).
Proof.
  unfold deferCalls, closeEvents, closeCalls.
  destruct (closed w =? handlerOpening); destruct (promOn w); simpl;
    repeat constructor.
Qed.

Lemma encodeCalls_events (h : Handler) (on : bool) (f : FwdId)
  (msgs : list MsgId) :
  Forall encodeEvent (flat_map (encodeCalls h on f) msgs).
Proof.
  induction msgs as [|m msgs IH]; simpl; [constructor|].
  unfold encodeCalls. destruct on; simpl; repeat constructor; exact IH.
Qed.

Lemma encodeTrace_events (h : Handler) (on : bool) (sc : Script) (f : FwdId)
  (msgs : list MsgId) :
  forall i, Forall encodeEvent (fst (encodeTrace h on sc f i msgs)).
Proof.
  induction msgs as [|m msgs IH]; intros i; simpl; [constructor|].
  destruct (sc_Encode sc i); simpl; [repeat constructor|].
  specialize (IH (S i)).
  destruct (encodeTrace h on sc f (S i) msgs) as [evs r]. simpl in *.
  unfold encodeCalls. destruct on; simpl; repeat constructor; exact IH.
Qed.

Lemma allocCalls_events (msgs : list MsgId) (lastCount : Z) (next : nat) :
  Forall allocEvent (allocCalls msgs lastCount next).
Proof.
  unfold allocCalls. cbv zeta.
  destruct (0 <? allocSize (len msgs) lastCount); [|constructor].
  repeat constructor. apply Forall_map, Forall_forall. intros; exact I.
Qed.

Lemma reset_events (msgs : list MsgId) : Forall resetEvent (map EvReset msgs).
Proof. apply Forall_map, Forall_forall. intros; exact I. Qed.

Ltac by_event :=
  let e := fresh "e" in let H := fresh "H" in
  intros e H; destruct e; solve [reflexivity | contradiction H].

(** Closes [flat_map phi part = []] for a part none of whose events [phi]
    looks at. *)
Ltac silent :=
  first
    [ apply (flat_map_silent _ deferEvent);
      [apply deferCalls_events | by_event]
    | apply (flat_map_silent _ encodeEvent);
      [apply encodeCalls_events | by_event]
    | apply (flat_map_silent _ encodeEvent);
      [apply encodeTrace_events | by_event]
    | apply (flat_map_silent _ allocEvent);
      [apply allocCalls_events | by_event]
    | apply (flat_map_silent _ resetEvent);
      [apply reset_events | by_event] ].

(** *** Returning and continuing cycles *)

(** A cycle that returns through [x] made the calls [exitCalls], ran
    [deferHandle] with the error of the failed call, and released. *)
Lemma cycle_return (h : Handler) (sc : Script) (messages : list MsgId)
  (f : FwdId) (w : World) (x : Exit) :
  fst (cycle h sc messages f w) = Return x ->
  snd (cycle h sc messages f w)
  = exitWorld h messages (failedCall h sc messages f w x) w
      (exitCalls h sc messages f w x) (exitRelease sc f x)
  /\ (x <> ExitTopology ->
      exists e, failedCall h sc messages f w x = Some e)
  /\ (x = ExitTopology ->
      sc_State sc = ForwarderStateClosed /\ closeWhenChange h = true
      /\ snd (sc_Decode sc messages) = None).
Proof.
  intros Hx. pose proof (cycle_path h sc messages f w) as P.
  rewrite Hx in P.
  inversion P as [msgs e Hd Hn Hw | msgs Hd Hs Hp Hn Hw
                 | msgs e Hd Hs Hf Hn Hw | msgs e Hd Hs Hf He Hn Hw
                 | msgs e Hd Hs Hf He Hfl Hn Hw
                 | msgs Hd Hs Hf He Hfl r Hn Hw];
    subst x; unfold failedCall, exitCalls, exitRelease; cbv zeta;
    rewrite ?Hd; cbn [fst snd].
  - split; [reflexivity|]. split; [eauto | discriminate].
  - split; [reflexivity|]. split; [congruence | auto].
  - rewrite Hf. split; [reflexivity|]. split; [eauto | discriminate].
  - rewrite He. split; [reflexivity|]. split; [eauto | discriminate].
  - rewrite Hfl. split; [reflexivity|]. split; [eauto | discriminate].
Qed.

(** A cycle that goes on made the calls [successCalls], then ran the
    allocator on the decoded count, and keeps the checked forwarder. *)
Lemma cycle_continue (h : Handler) (sc : Script) (messages : list MsgId)
  (f : FwdId) (w : World) (messages' : list MsgId) (f' : FwdId) :
  fst (cycle h sc messages f w) = Continue messages' f' ->
  f' = checkedForwarder sc f
  /\ (messages', snd (cycle h sc messages f w))
     = allocMaxConcurrent messages (len (fst (sc_Decode sc messages)))
         (addCalls w (successCalls h sc messages f w))
  /\ snd (sc_Decode sc messages) = None
  /\ (sc_State sc = ForwarderStateOpen \/ closeWhenChange h = false)
  /\ sc_Forward sc = None /\ sc_Flush sc = None.
Proof.
  intros Hx. pose proof (cycle_path h sc messages f w) as P.
  rewrite Hx in P.
  inversion P as [msgs e Hd Hn Hw | msgs Hd Hs Hp Hn Hw
                 | msgs e Hd Hs Hf Hn Hw | msgs e Hd Hs Hf He Hn Hw
                 | msgs e Hd Hs Hf He Hfl Hn Hw
                 | msgs Hd Hs Hf He Hfl r Hn Hw].
  subst r. unfold successCalls. cbv zeta. rewrite Hd. cbn [fst snd].
  destruct (allocMaxConcurrent messages (len msgs) _) as [m' w'].
  cbn [fst snd] in *. repeat split; auto.
Qed.

Lemma cycle_continue_since (h : Handler) (sc : Script) (messages : list MsgId)
  (f : FwdId) (w : World) (messages' : list MsgId) (f' : FwdId) :
  fst (cycle h sc messages f w) = Continue messages' f' ->
  since w (snd (cycle h sc messages f w))
  = successCalls h sc messages f w
    ++ allocCalls messages (len (fst (sc_Decode sc messages))) (poolNext w).
Proof.
  intros Hx. destruct (cycle_continue _ _ _ _ _ _ _ Hx) as (_ & E & _).
  apply since_app.
  replace (snd (cycle h sc messages f w))
    with (snd (messages', snd (cycle h sc messages f w))) by reflexivity.
  rewrite E, allocMaxConcurrent_calls. unfold addCalls. simpl.
  now rewrite <- app_assoc.
Qed.

Lemma cycle_return_since (h : Handler) (sc : Script) (messages : list MsgId)
  (f : FwdId) (w : World) (x : Exit) :
  fst (cycle h sc messages f w) = Return x ->
  since w (snd (cycle h sc messages f w))
  = exitCalls h sc messages f w x ++ deferCalls h messages w
    ++ exitRelease sc f x.
Proof.
  intros Hx. destruct (cycle_return _ _ _ _ _ _ Hx) as (E & _).
  rewrite E. apply exitWorld_since.
Qed.

(** A returning cycle ends [handle], whatever cycles were still to come. *)
Lemma handleLoop_return (h : Handler) (sc : Script) (rest : list Script)
  (messages : list MsgId) (f : FwdId) (w : World) (x : Exit) :
  fst (cycle h sc messages f w) = Return x ->
  handleLoop h (sc :: rest) messages f w
  = (Some x, snd (cycle h sc messages f w)).
Proof.
  intros Hx. simpl. unfold bind.
  destruct (cycle h sc messages f w) as [n w']. simpl in *. now subst n.
Qed.

(** Drops the parts of a record of calls a projection does not look at. *)
Ltac hush :=
  repeat first
    [ rewrite (flat_map_silent _ deferEvent (deferCalls _ _ _))
        by first [apply deferCalls_events | by_event]
    | rewrite (flat_map_silent _ encodeEvent
                 (flat_map (encodeCalls _ _ _) _))
        by first [apply encodeCalls_events | by_event]
    | rewrite (flat_map_silent _ encodeEvent
                 (fst (encodeTrace _ _ _ _ _ _)))
        by first [apply encodeTrace_events | by_event]
    | rewrite (flat_map_silent _ allocEvent (allocCalls _ _ _))
        by first [apply allocCalls_events | by_event]
    | rewrite (flat_map_silent _ resetEvent (map EvReset _))
        by first [apply reset_events | by_event] ].

(** ** Forwarder references *)

Lemma holding_app (a b : list RefOp) :
  forall cur,
    holding (a ++ b) cur
    = match holding a cur with
      | Some cur' => holding b cur'
      | None => None
      end.
Proof.
  induction a as [|[g|g] a IH]; intros cur; simpl.
  - now destruct cur.
  - destruct cur; [reflexivity | apply IH].
  - destruct cur as [c|]; [|reflexivity].
    destruct (Nat.eqb g c); [apply IH | reflexivity].
Qed.

Lemma reacquireOps_holding (sc : Script) (f : FwdId) :
  holding (reacquireOps sc f) (Some f) = Some (Some (checkedForwarder sc f)).
Proof.
  unfold reacquireOps, checkedForwarder.
  destruct (sc_State sc); simpl; [reflexivity|].
  now rewrite Nat.eqb_refl.
Qed.

(** The acquisitions and releases of one cycle. *)
Lemma cycle_refOps (h : Handler) (sc : Script) (messages : list MsgId)
  (f : FwdId) (w : World) :
  refOps (since w (snd (cycle h sc messages f w)))
  = match fst (cycle h sc messages f w) with
    | Return ExitDecode | Return ExitTopology => [Release f]
    | Return _ => reacquireOps sc f ++ [Release (checkedForwarder sc f)]
    | Continue _ _ => reacquireOps sc f
    end.
Proof.
  destruct (fst (cycle h sc messages f w)) as [m' f'|x] eqn:Hx.
  - rewrite (cycle_continue_since _ _ _ _ _ _ _ Hx).
    unfold successCalls, forwardCalls, refOps. cbv zeta.
    rewrite !flat_map_app. hush.
    unfold checkCalls, reacquireOps. destruct (sc_State sc); reflexivity.
  - rewrite (cycle_return_since _ _ _ _ _ _ Hx).
    unfold refOps. rewrite !flat_map_app. hush.
    destruct x; unfold exitCalls, exitRelease, forwardCalls; cbv zeta;
      rewrite ?flat_map_app; hush;
      unfold checkCalls, reacquireOps; destruct (sc_State sc); reflexivity.
Qed.

Lemma cycle_holding (h : Handler) (sc : Script) (messages : list MsgId)
  (f : FwdId) (w : World) :
  holding (refOps (since w (snd (cycle h sc messages f w)))) (Some f)
  = Some (match fst (cycle h sc messages f w) with
          | Continue _ f' => Some f'
          | Return _ => None
          end).
Proof.
  rewrite cycle_refOps.
  destruct (fst (cycle h sc messages f w)) as [m' f'|x] eqn:Hx.
  - destruct (cycle_continue _ _ _ _ _ _ _ Hx) as (-> & _).
    apply reacquireOps_holding.
  - destruct x; rewrite ?holding_app, ?reacquireOps_holding; simpl;
      now rewrite Nat.eqb_refl.
Qed.

Lemma cycle_calls (h : Handler) (sc : Script) (messages : list MsgId)
  (f : FwdId) (w : World) :
  calls (snd (cycle h sc messages f w))
  = calls w ++ since w (snd (cycle h sc messages f w)).
Proof.
  destruct (fst (cycle h sc messages f w)) as [m' f'|x] eqn:Hx.
  - rewrite (cycle_continue_since _ _ _ _ _ _ _ Hx).
    destruct (cycle_continue _ _ _ _ _ _ _ Hx) as (_ & E & _).
    replace (snd (cycle h sc messages f w))
      with (snd (m', snd (cycle h sc messages f w))) by reflexivity.
    rewrite E, allocMaxConcurrent_calls. unfold addCalls. simpl.
    now rewrite <- app_assoc.
  - rewrite (cycle_return_since _ _ _ _ _ _ Hx).
    destruct (cycle_return _ _ _ _ _ _ Hx) as (E & _). rewrite E.
    unfold exitWorld. cbv zeta.
    destruct (closed w =? handlerOpening); reflexivity.
Qed.

(** Over any number of cycles the reference held when the loop is entered
    is handed on from cycle to cycle and released when a cycle returns. *)
Lemma handleLoop_holding (h : Handler) (scripts : list Script) :
  forall (messages : list MsgId) (f : FwdId) (w : World),
    let r := handleLoop h scripts messages f w in
    exists evs,
      calls (snd r) = calls w ++ evs
      /\ match fst r with
         | Some _ => holding (refOps evs) (Some f) = Some None
         | None => exists f', holding (refOps evs) (Some f) = Some (Some f')
         end.
Proof.
  induction scripts as [|sc rest IH]; intros messages f w; simpl.
  - exists []. rewrite app_nil_r. simpl. eauto.
  - unfold bind.
    pose proof (cycle_holding h sc messages f w) as Hh.
    pose proof (cycle_calls h sc messages f w) as Hc.
    destruct (cycle h sc messages f w) as [[m' f'|x] w'] eqn:E;
      cbn [fst snd] in *.
    + destruct (IH m' f' w') as (evs & Hevs & Hres).
      exists (since w w' ++ evs). split.
      * rewrite Hevs, Hc. now rewrite <- app_assoc.
      * unfold refOps in *. rewrite flat_map_app, holding_app, Hh.
        exact Hres.
    + exists (since w w'). split; [exact Hc | exact Hh].
Qed.

(** The claim C1 makes about the success path fails: a cycle that
    completes with the forwarder open releases nothing. *)
Lemma cycle_success_keeps_reference :
  ~ (forall (h : Handler) (sc : Script) (messages : list MsgId) (f : FwdId)
            (w : World),
        released (since w (snd (cycle h sc messages f w))) = [f]).
Proof.
  intros H.
  specialize (H sampleHandler (scriptOk 2) sampleBatch sampleForwarder
                sampleWorld).
  vm_compute in H. discriminate H.
Qed.

(** C1, as the code has it: [handle] acquires a reference before the loop
    and holds exactly one at every turn of the loop.  A cycle that goes on
    releases nothing when the forwarder is open, and releases the stale
    reference then acquires a new one when it is closed; a cycle that
    returns (decode, forward, encode or flush error, or topology closed
    under the close policy) ends with the release of the reference held.
    Over the whole run no reference is released twice or without being
    held, none is acquired while another is held, and once [handle] has
    returned none is held. *)
Theorem forwarder_reference_balance :
  forall (h : Handler) (first : FwdId) (scripts : list Script) (w : World),
    (let r := handle h first scripts w in
     match fst r with
     | Some _ => holding (refOps (since w (snd r))) None = Some None
     | None =>
         exists f, holding (refOps (since w (snd r))) None = Some (Some f)
     end)
    /\ (forall (sc : Script) (messages : list MsgId) (f : FwdId),
           refOps (since w (snd (cycle h sc messages f w)))
           = match fst (cycle h sc messages f w) with
             | Return ExitDecode | Return ExitTopology => [Release f]
             | Return _ =>
                 reacquireOps sc f ++ [Release (checkedForwarder sc f)]
             | Continue _ _ => reacquireOps sc f
             end).
Proof.
  intros h first scripts w. split; [|intros; apply cycle_refOps].
  cbv zeta. unfold handle, bind.
  pose proof (allocMaxConcurrent_calls [] (len (@nil MsgId)) w) as Ha.
  destruct (allocMaxConcurrent [] (len (@nil MsgId)) w) as [messages w1].
  cbn [snd] in Ha. rewrite emit_run.
  destruct (handleLoop_holding h scripts messages first
              (addCalls w1 [EvGetForwarder (ClusterID h) first]))
    as (evs & Hevs & Hres).
  cbv zeta in Hevs, Hres.
  set (r := handleLoop h scripts messages first _) in *.
  assert (Hs : since w (snd r)
               = allocCalls [] (len (@nil MsgId)) (poolNext w)
                 ++ [EvGetForwarder (ClusterID h) first] ++ evs).
  { apply since_app. rewrite Hevs. unfold addCalls. simpl. rewrite Ha.
    now rewrite <- !app_assoc. }
  rewrite Hs. unfold refOps in *. rewrite !flat_map_app. hush.
  exact Hres.
Qed.

(** ** The forwarder check *)

Lemma tailEvent_of_parts (e : Event) :
  deferEvent e \/ encodeEvent e \/ allocEvent e \/ resetEvent e ->
  tailEvent e.
Proof. destruct e; simpl; tauto. Qed.

Lemma Forall_tail (P : Event -> Prop) (evs : list Event) :
  (forall e, P e ->
             deferEvent e \/ encodeEvent e \/ allocEvent e \/ resetEvent e) ->
  Forall P evs -> Forall tailEvent evs.
Proof.
  intros HP. apply Forall_impl. intros e He.
  apply tailEvent_of_parts. auto.
Qed.

Lemma Forall_tail_app (a b : list Event) :
  Forall tailEvent a -> Forall tailEvent b -> Forall tailEvent (a ++ b).
Proof. intros Ha Hb. apply Forall_app. now split. Qed.

Lemma Forall_tail_cons (e : Event) (evs : list Event) :
  tailEvent e -> Forall tailEvent evs -> Forall tailEvent (e :: evs).
Proof. intros He Hevs. now constructor. Qed.

(** Proves [Forall tailEvent] of a concatenation of parts of a cycle. *)
Ltac tail_parts :=
  repeat first
    [ exact I
    | assumption
    | apply Forall_nil
    | eapply Forall_tail; [|apply encodeCalls_events]; tauto
    | eapply Forall_tail; [|apply encodeTrace_events]; tauto
    | eapply Forall_tail; [|apply reset_events]; tauto
    | eapply Forall_tail; [|apply allocCalls_events]; tauto
    | eapply Forall_tail; [|apply deferCalls_events]; tauto
    | apply Forall_tail_app
    | apply Forall_tail_cons ].

(** Once past the forwarder check, a cycle calls [Forward] and nothing
    after it dispatches or acquires. *)
Lemma cycle_tail (h : Handler) (sc : Script) (messages : list MsgId)
  (f : FwdId) (w : World) (msgs : list MsgId) :
  sc_Decode sc messages = (msgs, None) ->
  sc_State sc = ForwarderStateOpen \/ closeWhenChange h = false ->
  exists tail,
    since w (snd (cycle h sc messages f w))
    = forwardCalls h sc messages msgs f ++ tail
    /\ Forall tailEvent tail.
Proof.
  intros Hd Hs.
  destruct (fst (cycle h sc messages f w)) as [m' f'|x] eqn:Hx.
  - rewrite (cycle_continue_since _ _ _ _ _ _ _ Hx).
    unfold successCalls. cbv zeta. rewrite Hd. cbn [fst].
    exists ([EvWait]
            ++ flat_map (encodeCalls h (promOn w) (checkedForwarder sc f))
                        msgs
            ++ [EvFlush] ++ map EvReset msgs
            ++ allocCalls messages (len msgs) (poolNext w)).
    split; [now rewrite <- !app_assoc|]. tail_parts.
  - rewrite (cycle_return_since _ _ _ _ _ _ Hx).
    destruct (cycle_return _ _ _ _ _ _ Hx) as (_ & Herr & Htop).
    destruct x; unfold exitCalls, exitRelease; cbv zeta; rewrite ?Hd;
      cbn [fst].
    + destruct Herr as (e & He); [discriminate|].
      unfold failedCall in He. rewrite Hd in He. discriminate He.
    + destruct (Htop eq_refl) as (Hc & Hp & _).
      destruct Hs as [Hs|Hs]; congruence.
    + exists (deferCalls h messages w
              ++ [EvRelease (checkedForwarder sc f)]).
      split; [reflexivity|]. tail_parts.
    + exists ([EvWait]
              ++ fst (encodeTrace h (promOn w) sc (checkedForwarder sc f)
                        0 msgs)
              ++ [EvFlush] ++ deferCalls h messages w
              ++ [EvRelease (checkedForwarder sc f)]).
      split; [now rewrite <- !app_assoc|]. tail_parts.
    + exists ([EvWait]
              ++ flat_map (encodeCalls h (promOn w) (checkedForwarder sc f))
                          msgs
              ++ [EvFlush] ++ deferCalls h messages w
              ++ [EvRelease (checkedForwarder sc f)]).
      split; [now rewrite <- !app_assoc|]. tail_parts.
Qed.

Lemma forwardCalls_closed (h : Handler) (sc : Script)
  (messages msgs : list MsgId) (f : FwdId) :
  sc_State sc = ForwarderStateClosed ->
  forwardCalls h sc messages msgs f
  = [EvDecode messages; EvState f; EvRelease f;
     EvGetForwarder (ClusterID h) (sc_GetForwarder sc);
     EvForward (sc_GetForwarder sc) msgs].
Proof.
  intros Hs. unfold forwardCalls, checkCalls, checkedForwarder.
  now rewrite Hs.
Qed.

Lemma deferCalls_connCloses (h : Handler) (msgs : list MsgId) (w : World) :
  closed w = handlerOpening ->
  connCloses (deferCalls h msgs w) = [conn h].
Proof.
  intros H. unfold deferCalls, closeEvents, closeCalls. rewrite H. simpl.
  now destruct (promOn w).
Qed.

(** C4: a cycle that decoded its batch and finds the forwarder closed.
    Under the close policy it releases the stale forwarder, runs
    [deferHandle] and returns: no [Forward] call is made, and an open
    handler is closed, its connection closed once.  Without the policy it
    releases the stale forwarder, asks the registry for the forwarder of
    the same cluster id and forwards the decoded batch through it, in
    that cycle, exactly once. *)
Theorem cycle_forwarder_closed :
  forall (h : Handler) (sc : Script) (messages : list MsgId) (f : FwdId)
         (w : World) (msgs : list MsgId),
    sc_Decode sc messages = (msgs, None) ->
    sc_State sc = ForwarderStateClosed ->
    let c := cycle h sc messages f w in
    if closeWhenChange h then
      fst c = Return ExitTopology
      /\ since w (snd c)
         = [EvDecode messages; EvState f; EvRelease f]
           ++ deferCalls h messages w
      /\ forwarded (since w (snd c)) = []
      /\ (closed w = handlerOpening ->
          closed (snd c) = handlerClosed
          /\ connCloses (since w (snd c)) = [conn h])
    else
      exists rest,
        since w (snd c)
        = [EvDecode messages; EvState f; EvRelease f;
           EvGetForwarder (ClusterID h) (sc_GetForwarder sc);
           EvForward (sc_GetForwarder sc) msgs] ++ rest
        /\ forwarded (since w (snd c)) = [(sc_GetForwarder sc, msgs)]
        /\ acquired (since w (snd c)) = [sc_GetForwarder sc].
Proof.
  intros h sc messages f w msgs Hd Hs c. subst c.
  destruct (closeWhenChange h) eqn:Hp.
  - rewrite (cycle_topology_closed h sc messages f w msgs Hd Hs Hp).
    cbn [fst snd]. rewrite exitWorld_since, app_nil_r.
    split; [reflexivity|]. split; [reflexivity|]. split.
    + unfold forwarded. rewrite flat_map_app. hush. reflexivity.
    + intros Ho. split; [now apply exitWorld_opening|].
      unfold connCloses. rewrite flat_map_app. cbn [flat_map app].
      now apply deferCalls_connCloses.
  - destruct (cycle_tail h sc messages f w msgs Hd (or_intror Hp))
      as (tail & Htail & Hall).
    exists tail. rewrite Htail, (forwardCalls_closed _ _ _ _ _ Hs).
    split; [reflexivity|]. split.
    + unfold forwarded. rewrite flat_map_app.
      rewrite (flat_map_silent _ tailEvent tail Hall) by by_event.
      reflexivity.
    + unfold acquired. rewrite flat_map_app.
      rewrite (flat_map_silent _ tailEvent tail Hall) by by_event.
      reflexivity.
Qed.

Lemma cycle_forwarder_closed_witness :
  fst (cycle sampleHandler scriptTopology sampleBatch sampleForwarder
         sampleWorld) = Return ExitTopology
  /\ forwarded (since sampleWorld
                  (snd (cycle sampleHandler scriptTopology sampleBatch
                          sampleForwarder sampleWorld))) = []
  /\ forwarded (since sampleWorld
                  (snd (cycle sampleKeepHandler scriptTopology sampleBatch
                          sampleForwarder sampleWorld)))
     = [(9%nat, sampleBatch)].
Proof.
  pose proof (cycle_forwarder_closed sampleHandler scriptTopology sampleBatch
                sampleForwarder sampleWorld sampleBatch eq_refl eq_refl)
    as Hclose.
  pose proof (cycle_forwarder_closed sampleKeepHandler scriptTopology
                sampleBatch sampleForwarder sampleWorld sampleBatch eq_refl
                eq_refl) as Hkeep.
  lazy beta zeta iota delta [closeWhenChange sampleHandler] in Hclose.
  lazy beta zeta iota delta [closeWhenChange sampleKeepHandler] in Hkeep.
  destruct Hclose as (H1 & _ & H3 & _).
  destruct Hkeep as (rest & _ & H5 & _).
  exact (conj H1 (conj H3 H5)).
Defined.

(** ** Failures *)

Lemma deferCalls_putBatches (h : Handler) (msgs : list MsgId) (w : World) :
  putBatches (deferCalls h msgs w) = [msgs].
Proof.
  unfold deferCalls, closeEvents, closeCalls.
  destruct (closed w =? handlerOpening); destruct (promOn w); reflexivity.
Qed.

Lemma exitCalls_quiet (h : Handler) (sc : Script) (messages : list MsgId)
  (f : FwdId) (w : World) (x : Exit) :
  putBatches (exitCalls h sc messages f w x) = []
  /\ resetMsgs (exitCalls h sc messages f w x) = []
  /\ connCloses (exitCalls h sc messages f w x) = [].
Proof.
  unfold putBatches, resetMsgs, connCloses.
  destruct x; unfold exitCalls, forwardCalls, checkCalls; cbv zeta;
    rewrite ?flat_map_app; hush; destruct (sc_State sc); auto.
Qed.

(** What a cycle that returned through [x] did from the failure on. *)
Lemma cycle_return_on_failure :
  forall (h : Handler) (sc : Script) (messages : list MsgId) (f : FwdId)
         (w : World) (x : Exit),
    fst (cycle h sc messages f w) = Return x ->
    x <> ExitTopology ->
    let w' := snd (cycle h sc messages f w) in
    let after := deferCalls h messages w ++ exitRelease sc f x in
    exists e,
      failedCall h sc messages f w x = Some e
      /\ since w w' = exitCalls h sc messages f w x ++ after
      /\ released after
         = [match x with ExitDecode => f | _ => checkedForwarder sc f end]
      /\ putBatches (since w w') = [messages]
      /\ forwarded after = [] /\ encoded after = [] /\ resetMsgs after = []
      /\ (x = ExitEncode ->
          exists before,
            exitCalls h sc messages f w x = before ++ [EvFlush])
      /\ (closed w = handlerOpening ->
          closed w' = handlerClosed /\ err w' = Some e
          /\ connCloses (since w w') = [conn h])
      /\ forall rest,
           handleLoop h (sc :: rest) messages f w = (Some x, w').
Proof.
  intros h sc messages f w x Hx Hnt w' after. subst w' after.
  destruct (cycle_return _ _ _ _ _ _ Hx) as (Hw & Herr & _).
  destruct (Herr Hnt) as (e & He). exists e.
  rewrite (cycle_return_since _ _ _ _ _ _ Hx).
  destruct (exitCalls_quiet h sc messages f w x) as (Hput & _ & Hcc).
  split; [exact He|]. split; [reflexivity|]. split.
  { unfold released. rewrite flat_map_app. hush.
    destruct x; try reflexivity. now elim Hnt. }
  split.
  { unfold putBatches in *. rewrite !flat_map_app, Hput.
    fold (putBatches (deferCalls h messages w)).
    rewrite deferCalls_putBatches. destruct x; reflexivity. }
  split.
  { unfold forwarded. rewrite flat_map_app. hush. destruct x; reflexivity. }
  split.
  { unfold encoded. rewrite flat_map_app. hush. destruct x; reflexivity. }
  split.
  { unfold resetMsgs. rewrite flat_map_app. hush. destruct x; reflexivity. }
  split.
  { intros ->. unfold exitCalls. cbv zeta.
    eexists. rewrite !app_assoc. reflexivity. }
  split.
  { intros Ho. rewrite Hw, He.
    destruct (exitWorld_opening h messages (Some e) w
                (exitCalls h sc messages f w x) (exitRelease sc f x) Ho)
      as (Hc & Herr' & _).
    split; [exact Hc|]. split; [exact Herr'|].
    unfold connCloses in *. rewrite !flat_map_app, Hcc.
    fold (connCloses (deferCalls h messages w)).
    rewrite (deferCalls_connCloses h messages w Ho).
    destruct x; reflexivity. }
  intros rest. now apply handleLoop_return.
Qed.

Lemma encodeTrace_fails (h : Handler) (on : bool) (sc : Script) (f : FwdId)
  (msgs : list MsgId) :
  forall (i k : nat) (e : error),
    (k < List.length msgs)%nat ->
    (forall j, (j < k)%nat -> sc_Encode sc (i + j)%nat = None) ->
    sc_Encode sc (i + k)%nat = Some e ->
    snd (encodeTrace h on sc f i msgs) = Some e.
Proof.
  induction msgs as [|m rest IH]; intros i k e Hk Hbefore Hfail;
    [simpl in Hk; lia|].
  cbn [encodeTrace]. destruct k as [|k].
  - rewrite Nat.add_0_r in Hfail. now rewrite Hfail.
  - pose proof (Hbefore 0%nat ltac:(lia)) as H0.
    rewrite Nat.add_0_r in H0. rewrite H0.
    specialize (IH (S i) k e).
    destruct (encodeTrace h on sc f (S i) rest) as [evs r]. cbn [snd] in *.
    apply IH.
    + simpl in Hk. lia.
    + intros j Hj. replace (S i + j)%nat with (i + S j)%nat by lia.
      apply Hbefore. lia.
    + now replace (S i + k)%nat with (i + S k)%nat by lia.
Qed.

Lemma encodeTrace_succeeds (h : Handler) (on : bool) (sc : Script) (f : FwdId)
  (msgs : list MsgId) :
  forall i : nat,
    (forall j, (j < List.length msgs)%nat ->
               sc_Encode sc (i + j)%nat = None) ->
    snd (encodeTrace h on sc f i msgs) = None.
Proof.
  induction msgs as [|m rest IH]; intros i Hall; [reflexivity|].
  cbn [encodeTrace].
  pose proof (Hall 0%nat ltac:(simpl; lia)) as H0.
  rewrite Nat.add_0_r in H0. rewrite H0.
  specialize (IH (S i)).
  destruct (encodeTrace h on sc f (S i) rest) as [evs r]. cbn [snd] in *.
  apply IH. intros j Hj.
  replace (S i + j)%nat with (i + S j)%nat by lia.
  apply Hall. simpl. lia.
Qed.

(** A failing call makes the cycle return through the exit of that call,
    with the error of that call as [failedCall]. *)
Lemma Failure_return (h : Handler) (sc : Script) (messages : list MsgId)
  (f : FwdId) (w : World) (x : Exit) (e : error) :
  Failure h sc messages x e ->
  fst (cycle h sc messages f w) = Return x
  /\ x <> ExitTopology
  /\ failedCall h sc messages f w x = Some e.
Proof.
  intros F.
  destruct F as [msgs e Hd | msgs e Hd Hs Hf | msgs k e Hd Hs Hf Hk Hb Hfail
                 | msgs e Hd Hs Hf Hall Hfl]; unfold failedCall; rewrite ?Hd;
    cbn [fst snd].
  - rewrite (cycle_decode_error h sc messages f w msgs e Hd).
    repeat split; discriminate.
  - rewrite (cycle_forward_error h sc messages f w msgs e Hd Hs Hf).
    repeat split; [discriminate | exact Hf].
  - pose proof (encodeTrace_fails h (promOn w) sc (checkedForwarder sc f)
                  msgs 0 k e Hk Hb Hfail) as He.
    rewrite (cycle_encode_error h sc messages f w msgs e Hd Hs Hf He).
    repeat split; [discriminate | exact He].
  - pose proof (encodeTrace_succeeds h (promOn w) sc (checkedForwarder sc f)
                  msgs 0 Hall) as He.
    rewrite (cycle_flush_error h sc messages f w msgs e Hd Hs Hf He Hfl).
    repeat split; [discriminate | exact Hfl].
Qed.

Lemma exit_removed (h : Handler) (sc : Script) (messages : list MsgId)
  (f : FwdId) (w : World) (x : Exit) :
  removed (exitCalls h sc messages f w x ++ deferCalls h messages w
           ++ exitRelease sc f x)
  = [(ClusterID h, conn h)].
Proof.
  unfold removed.
  destruct x;
    unfold exitCalls, exitRelease, forwardCalls, checkCalls, deferCalls,
      closeEvents, closeCalls;
    cbv zeta; rewrite !flat_map_app; hush;
    destruct (sc_State sc); destruct (closed w =? handlerOpening);
    destruct (promOn w); reflexivity.
Qed.

(** C6: whenever a call fails (the [Decode]; or, the cycle having reached
    it, the [Forward], an [Encode] or the [Flush]), the cycle returns
    through the exit of that call, and from the failure on it makes
    exactly these calls: on an encode error a [Flush] whose result is not
    looked at; then [deferHandle], which deregisters, gives the batch back
    to the pool and closes with the error of the failed call; then one
    [Release] of the forwarder in use.  Nothing is forwarded, encoded or
    reset after the failure, an open handler ends closed with that error
    recorded, and [handle] returns whatever cycles were still to come. *)
Theorem cycle_failure_releases_discards_closes :
  forall (h : Handler) (sc : Script) (messages : list MsgId) (f : FwdId)
         (w : World) (x : Exit) (e : error),
    Failure h sc messages x e ->
    let w' := snd (cycle h sc messages f w) in
    let after := deferCalls h messages w ++ exitRelease sc f x in
    fst (cycle h sc messages f w) = Return x
    /\ since w w' = exitCalls h sc messages f w x ++ after
    /\ released after
       = [match x with ExitDecode => f | _ => checkedForwarder sc f end]
    /\ putBatches (since w w') = [messages]
    /\ removed (since w w') = [(ClusterID h, conn h)]
    /\ forwarded after = [] /\ encoded after = [] /\ resetMsgs after = []
    /\ (x = ExitEncode ->
        exists before,
          exitCalls h sc messages f w x = before ++ [EvFlush])
    /\ (closed w = handlerOpening ->
        closed w' = handlerClosed /\ err w' = Some e
        /\ connCloses (since w w') = [conn h])
    /\ forall rest,
         handleLoop h (sc :: rest) messages f w = (Some x, w').
Proof.
  intros h sc messages f w x e F w' after. subst w' after.
  destruct (Failure_return h sc messages f w x e F) as (Hx & Hnt & Hfail).
  destruct (cycle_return_on_failure h sc messages f w x Hx Hnt)
    as (e' & He' & Hs & Hrel & Hput & Hfw & Henc & Hres & Hflush & Hclose
        & Hloop).
  rewrite Hfail in He'. injection He' as <-.
  split; [exact Hx|]. split; [exact Hs|]. split; [exact Hrel|].
  split; [exact Hput|]. split.
  { rewrite Hs. apply exit_removed. }
  split; [exact Hfw|]. split; [exact Henc|]. split; [exact Hres|].
  split; [exact Hflush|]. split; [exact Hclose | exact Hloop].
Qed.

Lemma cycle_failure_releases_discards_closes_witness :
  (let c := cycle sampleHandler scriptDecodeError sampleBatch
              sampleForwarder sampleWorld in
   fst c = Return ExitDecode /\ err (snd c) = Some "EOF"%string)
  /\ (let c := cycle sampleHandler scriptForwardError sampleBatch
                 sampleForwarder sampleWorld in
      fst c = Return ExitForward /\ err (snd c) = Some "forward"%string)
  /\ (let c := cycle sampleHandler scriptEncodeError sampleBatch
                 sampleForwarder sampleWorld in
      fst c = Return ExitEncode /\ err (snd c) = Some "encode"%string
      /\ putBatches (since sampleWorld (snd c)) = [sampleBatch])
  /\ (let c := cycle sampleHandler scriptFlushError sampleBatch
                 sampleForwarder sampleWorld in
      fst c = Return ExitFlush /\ err (snd c) = Some "flush"%string).
Proof.
  assert (Hall : forall j, (j < List.length sampleBatch)%nat ->
                           sc_Encode scriptFlushError j = None)
    by reflexivity.
  assert (Hbefore : forall j, (j < 1)%nat ->
                              sc_Encode scriptEncodeError j = None)
    by (intros [|j] Hj; [reflexivity | lia]).
  destruct (cycle_failure_releases_discards_closes sampleHandler
              scriptDecodeError sampleBatch sampleForwarder sampleWorld
              ExitDecode "EOF"%string
              (DecodeFails sampleHandler scriptDecodeError sampleBatch []
                 "EOF"%string eq_refl))
    as (D1 & _ & _ & _ & _ & _ & _ & _ & _ & D2 & _).
  destruct (cycle_failure_releases_discards_closes sampleHandler
              scriptForwardError sampleBatch sampleForwarder sampleWorld
              ExitForward "forward"%string
              (ForwardFails sampleHandler scriptForwardError sampleBatch
                 sampleBatch "forward"%string eq_refl
                 (or_introl eq_refl) eq_refl))
    as (F1 & _ & _ & _ & _ & _ & _ & _ & _ & F2 & _).
  destruct (cycle_failure_releases_discards_closes sampleHandler
              scriptEncodeError sampleBatch sampleForwarder sampleWorld
              ExitEncode "encode"%string
              (EncodeFails sampleHandler scriptEncodeError sampleBatch
                 sampleBatch 1 "encode"%string eq_refl
                 (or_introl eq_refl) eq_refl (le_n 2) Hbefore eq_refl))
    as (E1 & _ & _ & E3 & _ & _ & _ & _ & _ & E2 & _).
  destruct (cycle_failure_releases_discards_closes sampleHandler
              scriptFlushError sampleBatch sampleForwarder sampleWorld
              ExitFlush "flush"%string
              (FlushFails sampleHandler scriptFlushError sampleBatch
                 sampleBatch "flush"%string eq_refl
                 (or_introl eq_refl) eq_refl Hall eq_refl))
    as (L1 & _ & _ & _ & _ & _ & _ & _ & _ & L2 & _).
  destruct (D2 eq_refl) as (_ & D3 & _).
  destruct (F2 eq_refl) as (_ & F3 & _).
  destruct (E2 eq_refl) as (_ & E4 & _).
  destruct (L2 eq_refl) as (_ & L3 & _).
  exact (conj (conj D1 D3)
           (conj (conj F1 F3)
              (conj (conj E1 (conj E4 E3)) (conj L1 L3)))).
Defined.

(** ** Completed cycles *)

Lemma encodeCalls_encoded (h : Handler) (on : bool) (f : FwdId)
  (msgs : list MsgId) :
  encoded (flat_map (encodeCalls h on f) msgs) = map (fun m => (m, f)) msgs.
Proof.
  unfold encoded. induction msgs as [|m msgs IH]; [reflexivity|].
  cbn [flat_map map]. rewrite flat_map_app, IH.
  unfold encodeCalls. now destruct on.
Qed.

Lemma reset_resetMsgs (msgs : list MsgId) :
  resetMsgs (map EvReset msgs) = msgs.
Proof.
  unfold resetMsgs. induction msgs as [|m msgs IH]; [reflexivity|].
  simpl. now rewrite IH.
Qed.

(** The calls of a completed cycle up to and including [Flush]. *)
Lemma successCalls_split (h : Handler) (sc : Script) (messages : list MsgId)
  (f : FwdId) (w : World) :
  successCalls h sc messages f w
  = (forwardCalls h sc messages (fst (sc_Decode sc messages)) f ++ [EvWait]
     ++ flat_map (encodeCalls h (promOn w) (checkedForwarder sc f))
                 (fst (sc_Decode sc messages)))
    ++ EvFlush :: map EvReset (fst (sc_Decode sc messages)).
Proof. unfold successCalls. cbv zeta. now rewrite <- !app_assoc. Qed.

Lemma beforeFlush_projections (h : Handler) (sc : Script)
  (messages msgs : list MsgId) (f : FwdId) (on : bool) :
  let pre := forwardCalls h sc messages msgs f ++ [EvWait]
             ++ flat_map (encodeCalls h on (checkedForwarder sc f)) msgs in
  forwarded pre = [(checkedForwarder sc f, msgs)]
  /\ encoded pre = map (fun m => (m, checkedForwarder sc f)) msgs
  /\ flushes pre = [] /\ resetMsgs pre = [] /\ putBatches pre = [].
Proof.
  cbv zeta. split; [|split; [|split; [|split]]].
  - unfold forwarded, forwardCalls, checkCalls.
    rewrite !flat_map_app. hush. destruct (sc_State sc); reflexivity.
  - unfold forwardCalls, checkCalls.
    unfold encoded at 1. rewrite !flat_map_app.
    fold (encoded (flat_map (encodeCalls h on (checkedForwarder sc f)) msgs)).
    rewrite encodeCalls_encoded. destruct (sc_State sc); reflexivity.
  - unfold flushes, forwardCalls, checkCalls.
    rewrite !flat_map_app. hush. destruct (sc_State sc); reflexivity.
  - unfold resetMsgs, forwardCalls, checkCalls.
    rewrite !flat_map_app. hush. destruct (sc_State sc); reflexivity.
  - unfold putBatches, forwardCalls, checkCalls.
    rewrite !flat_map_app. hush. destruct (sc_State sc); reflexivity.
Qed.

(** C7: in a cycle that completes, the decoded messages are handed to
    [Forward] once, as one batch; [Encode] is then called on exactly those
    messages, once each and in the order [Decode] returned them, with the
    forwarder they were forwarded through; one [Flush] follows the last
    [Encode], and nothing is encoded, forwarded or flushed after it.  The
    number of responses encoded before the flush is the number of requests
    forwarded. *)
Theorem cycle_responses_in_decode_order :
  forall (h : Handler) (sc : Script) (messages : list MsgId) (f : FwdId)
         (w : World) (messages' : list MsgId) (f' : FwdId),
    fst (cycle h sc messages f w) = Continue messages' f' ->
    let msgs := fst (sc_Decode sc messages) in
    exists pre post,
      since w (snd (cycle h sc messages f w)) = pre ++ EvFlush :: post
      /\ forwarded pre = [(f', msgs)]
      /\ encoded pre = map (fun m => (m, f')) msgs
      /\ map fst (encoded pre) = msgs
      /\ List.length (encoded pre) = List.length msgs
      /\ flushes pre = []
      /\ forwarded post = [] /\ encoded post = [] /\ flushes post = [].
Proof.
  intros h sc messages f w messages' f' Hx msgs.
  destruct (cycle_continue _ _ _ _ _ _ _ Hx) as (-> & _).
  rewrite (cycle_continue_since _ _ _ _ _ _ _ Hx), successCalls_split.
  fold msgs.
  destruct (beforeFlush_projections h sc messages msgs f (promOn w))
    as (Hf & He & Hfl & _ & _). cbv zeta in Hf, He, Hfl.
  eexists. eexists. split; [rewrite <- app_assoc; reflexivity|].
  split; [exact Hf|]. split; [exact He|]. rewrite He.
  split; [rewrite map_map; apply map_id|].
  split; [apply length_map|]. split; [exact Hfl|].
  cbn [app]. unfold forwarded, encoded, flushes.
  rewrite !flat_map_app. hush. auto.
Qed.

Lemma cycle_responses_in_decode_order_witness :
  exists pre post,
    since sampleWorld
      (snd (cycle sampleHandler (scriptOk 2) sampleBatch sampleForwarder
              sampleWorld)) = pre ++ EvFlush :: post
    /\ map fst (encoded pre) = sampleBatch.
Proof.
  destruct (cycle_responses_in_decode_order sampleHandler (scriptOk 2)
              sampleBatch sampleForwarder sampleWorld
              [0; 1; 2; 3]%nat sampleForwarder eq_refl)
    as (pre & post & Hs & _ & _ & Hm & _).
  exists pre, post. exact (conj Hs Hm).
Defined.

(** ** Message disposal *)

(** The claim C9 makes about the success path fails when [Decode] fills
    only part of the batch: the slots beyond the decoded count are not
    reset. *)
Lemma cycle_partial_batch_not_all_reset :
  ~ (forall (h : Handler) (sc : Script) (messages : list MsgId) (f : FwdId)
            (w : World) (messages' : list MsgId) (f' : FwdId),
        fst (cycle h sc messages f w) = Continue messages' f' ->
        resetMsgs (since w (snd (cycle h sc messages f w))) = messages).
Proof.
  intros H.
  specialize (H sampleHandler (scriptOk 1) sampleBatch sampleForwarder
                sampleWorld sampleBatch sampleForwarder eq_refl).
  vm_compute in H. discriminate H.
Qed.

(** C9, as the code has it: a cycle that completes calls [Reset] on the
    messages [Decode] returned, once each and in that order, after the
    flush and before the allocator reuses the batch or gives it back to
    the pool; no other message of the batch is reset.  A cycle that
    returns calls [Reset] on no message and gives the batch back to the
    pool once. *)
Theorem cycle_reset_on_success_only :
  forall (h : Handler) (sc : Script) (messages : list MsgId) (f : FwdId)
         (w : World),
    let c := cycle h sc messages f w in
    let evs := since w (snd c) in
    let msgs := fst (sc_Decode sc messages) in
    match fst c with
    | Continue _ _ =>
        resetMsgs evs = msgs
        /\ exists pre,
             evs = pre ++ EvFlush :: map EvReset msgs
                   ++ allocCalls messages (len msgs) (poolNext w)
             /\ resetMsgs pre = [] /\ putBatches pre = []
    | Return _ => resetMsgs evs = [] /\ putBatches evs = [messages]
    end.
Proof.
  intros h sc messages f w c evs msgs. subst c evs.
  destruct (fst (cycle h sc messages f w)) as [m' f'|x] eqn:Hx.
  - rewrite (cycle_continue_since _ _ _ _ _ _ _ Hx), successCalls_split.
    fold msgs.
    destruct (beforeFlush_projections h sc messages msgs f (promOn w))
      as (_ & _ & _ & Hr & Hp). cbv zeta in Hr, Hp.
    split.
    + unfold resetMsgs in *. do 2 rewrite flat_map_app. rewrite Hr.
      cbn [flat_map app]. hush. fold (resetMsgs (map EvReset msgs)).
      now rewrite reset_resetMsgs, app_nil_r.
    + eexists. split; [rewrite <- app_assoc; reflexivity|].
      split; [exact Hr | exact Hp].
  - rewrite (cycle_return_since _ _ _ _ _ _ Hx).
    destruct (exitCalls_quiet h sc messages f w x) as (Hput & Hres & _).
    split.
    + unfold resetMsgs in *. rewrite !flat_map_app, Hres. hush.
      destruct x; reflexivity.
    + unfold putBatches in *. rewrite !flat_map_app, Hput.
      fold (putBatches (deferCalls h messages w)).
      rewrite deferCalls_putBatches. destruct x; reflexivity.
Qed.

(** ** The recorded error *)

(** C10: when a cycle returns on an open handler, the handler ends closed.
    Leaving through the topology check under the close policy records the
    nil error, whatever [h.err] held; leaving through any other return
    records the error of the call that failed. *)
Theorem topology_close_records_no_error :
  forall (h : Handler) (sc : Script) (messages : list MsgId) (f : FwdId)
         (w : World) (x : Exit),
    closed w = handlerOpening ->
    fst (cycle h sc messages f w) = Return x ->
    let w' := snd (cycle h sc messages f w) in
    closed w' = handlerClosed
    /\ (x = ExitTopology -> err w' = None)
    /\ (x <> ExitTopology ->
        exists e, failedCall h sc messages f w x = Some e
                  /\ err w' = Some e).
Proof.
  intros h sc messages f w x Ho Hx w'. subst w'.
  destruct (cycle_return _ _ _ _ _ _ Hx) as (Hw & Herr & _).
  rewrite Hw.
  destruct (exitWorld_opening h messages (failedCall h sc messages f w x) w
              (exitCalls h sc messages f w x) (exitRelease sc f x) Ho)
    as (Hc & He & _).
  split; [exact Hc|]. split.
  - intros ->. exact He.
  - intros Hnt. destruct (Herr Hnt) as (e & Hfail).
    exists e. split; [exact Hfail|]. now rewrite He.
Qed.

Lemma topology_close_records_no_error_witness :
  let w := mkWorld handlerOpening (Some "stale"%string) 1 true 0 [] in
  let w' := snd (cycle sampleHandler scriptTopology sampleBatch
                   sampleForwarder w) in
  closed w' = handlerClosed /\ err w' = None.
Proof.
  destruct (topology_close_records_no_error sampleHandler scriptTopology
              sampleBatch sampleForwarder
              (mkWorld handlerOpening (Some "stale"%string) 1 true 0 [])
              ExitTopology eq_refl eq_refl) as (Hc & Hnil & _).
  exact (conj Hc (Hnil eq_refl)).
Defined.

(** ** The package variables *)

Lemma allocSize_allocSizeWith (lm lastCount : Z) :
  allocSize lm lastCount = allocSizeWith concurrent maxConcurrent lm lastCount.
Proof. reflexivity. Qed.

(** The allocator compares the old capacity with the limit, not the new
    one: the bound of [allocMaxConcurrent_capacities] rests on
    [maxConcurrent] being a power of [concurrent].  With a base of 3 a
    saturated batch of 729 grows past 1024. *)
Example allocSizeWith_3_1024 : allocSizeWith 3 1024 729 729 = 2187.
Proof. reflexivity. Qed.

(** ** Sample runs *)

(** A saturated cycle, then end of stream: the batch grows to 4, the
    second [Decode] fails, the handler closes with that error and the one
    reference is released. *)
Example handle_eof_after_one_cycle :
  let r := handle sampleHandler sampleForwarder
             [scriptOk 2; scriptDecodeError] sampleWorld in
  fst r = Some ExitDecode
  /\ err (snd r) = Some "EOF"%string
  /\ conns (snd r) = 0
  /\ refOps (calls (snd r))
     = [Acquire sampleForwarder; Release sampleForwarder]
  /\ putBatches (calls (snd r))
     = [[]; sampleBatch; [2; 3; 4; 5]%nat].
Proof. vm_compute. repeat split. Qed.

Example handle_forward_error_calls :
  calls (snd (handle sampleHandler sampleForwarder [scriptForwardError]
                sampleWorld))
  = [EvPutMsgs []; EvGetMsgs 2 sampleBatch;
     EvWithWaitGroup 0%nat; EvWithWaitGroup 1%nat;
     EvGetForwarder 7 sampleForwarder; EvDecode sampleBatch;
     EvState sampleForwarder; EvForward sampleForwarder sampleBatch;
     EvRemoveConnection 7 42; EvPutMsgs sampleBatch;
     EvConnClose 42; EvConnDecr "cluster-a";
     EvRelease sampleForwarder].
Proof. reflexivity. Qed.

(** A topology change without the close policy, then a failing flush:
    the stale reference is released, the new one is used for both cycles
    and released at the end. *)
Example handle_reacquire_then_flush_error :
  let r := handle sampleKeepHandler sampleForwarder
             [scriptTopology; scriptFlushError] sampleWorld in
  fst r = Some ExitFlush
  /\ err (snd r) = Some "flush"%string
  /\ refOps (calls (snd r))
     = [Acquire sampleForwarder; Release sampleForwarder;
        Acquire 9%nat; Release 9%nat].
Proof. vm_compute. repeat split. Qed.

(** * Further properties *)

(** ** The loop as a relation *)

Lemma handleLoop_Run (h : Handler) (scripts : list Script) :
  forall (messages : list MsgId) (f : FwdId) (w : World),
    Run h scripts messages f w
        (fst (handleLoop h scripts messages f w))
        (snd (handleLoop h scripts messages f w)).
Proof.
  induction scripts as [|sc rest IH]; intros messages f w; simpl.
  - constructor.
  - unfold bind.
    destruct (cycle h sc messages f w) as [[m' f'|x] w1] eqn:E.
    + apply RunContinue with m' f'; rewrite E; [reflexivity|]. apply IH.
    + pose proof (RunReturn h sc rest messages f w x) as R.
      rewrite E in R. now apply R.
Qed.

(** [handle] is the first allocation, the first acquisition, and the
    loop. *)
Lemma handle_Run (h : Handler) (first : FwdId) (scripts : list Script)
  (w : World) :
  let batch := seq (poolNext w) (Z.to_nat concurrent) in
  let start :=
    mkWorld (closed w) (err w) (conns w) (promOn w)
            (poolNext w + Z.to_nat concurrent)%nat
            (calls w ++ EvPutMsgs [] :: EvGetMsgs concurrent batch
                     :: map EvWithWaitGroup batch
                     ++ [EvGetForwarder (ClusterID h) first]) in
  Run h scripts batch first start
      (fst (handle h first scripts w)) (snd (handle h first scripts w)).
Proof.
  cbv zeta. unfold handle, bind.
  rewrite allocMaxConcurrent_run. cbv zeta.
  change (allocSize (len (@nil MsgId)) (len (@nil MsgId))) with concurrent.
  change (0 <? concurrent) with true. cbv iota.
  unfold emit. cbn [closed err conns promOn poolNext calls].
  replace ((calls w ++ EvPutMsgs [] :: EvGetMsgs concurrent
                  (seq (poolNext w) (Z.to_nat concurrent))
                  :: map EvWithWaitGroup
                       (seq (poolNext w) (Z.to_nat concurrent)))
           ++ [EvGetForwarder (ClusterID h) first])
    with (calls w ++ EvPutMsgs [] :: EvGetMsgs concurrent
                  (seq (poolNext w) (Z.to_nat concurrent))
                  :: map EvWithWaitGroup
                       (seq (poolNext w) (Z.to_nat concurrent))
                  ++ [EvGetForwarder (ClusterID h) first])
    by (rewrite <- app_assoc; reflexivity).
  apply handleLoop_Run.
Qed.

(** A cycle that goes on touches neither [h.closed], [h.err], the counter
    nor the telemetry switch. *)
Lemma cycle_continue_frame (h : Handler) (sc : Script) (messages : list MsgId)
  (f : FwdId) (w : World) (messages' : list MsgId) (f' : FwdId) :
  fst (cycle h sc messages f w) = Continue messages' f' ->
  closed (snd (cycle h sc messages f w)) = closed w
  /\ err (snd (cycle h sc messages f w)) = err w
  /\ conns (snd (cycle h sc messages f w)) = conns w
  /\ promOn (snd (cycle h sc messages f w)) = promOn w.
Proof.
  intros Hx. destruct (cycle_continue _ _ _ _ _ _ _ Hx) as (_ & E & _).
  replace (snd (cycle h sc messages f w))
    with (snd (messages', snd (cycle h sc messages f w))) by reflexivity.
  rewrite E.
  apply (allocMaxConcurrent_frame messages _
           (addCalls w (successCalls h sc messages f w))).
Qed.

Lemma deferCalls_ext (h : Handler) (msgs : list MsgId) (w w' : World) :
  closed w' = closed w -> promOn w' = promOn w ->
  deferCalls h msgs w' = deferCalls h msgs w.
Proof.
  intros Hc Hp. unfold deferCalls, closeEvents. now rewrite Hc, Hp.
Qed.

(** *** The events of the loop *)

Lemma Forall_loop_app (on : bool) (a b : list Event) :
  Forall (loopEvent on) a -> Forall (loopEvent on) b ->
  Forall (loopEvent on) (a ++ b).
Proof. intros Ha Hb. apply Forall_app. now split. Qed.

Lemma forwardCalls_loop (on : bool) (h : Handler) (sc : Script)
  (messages msgs : list MsgId) (f : FwdId) :
  Forall (loopEvent on) (forwardCalls h sc messages msgs f).
Proof.
  unfold forwardCalls, checkCalls.
  destruct (sc_State sc); simpl; repeat constructor.
Qed.

Lemma encodeCalls_loop (h : Handler) (on : bool) (f : FwdId)
  (msgs : list MsgId) :
  Forall (loopEvent on) (flat_map (encodeCalls h on f) msgs).
Proof.
  induction msgs as [|m msgs IH]; simpl; [constructor|].
  unfold encodeCalls. destruct on; simpl; repeat constructor; exact IH.
Qed.

Lemma encodeTrace_loop (h : Handler) (on : bool) (sc : Script) (f : FwdId)
  (msgs : list MsgId) :
  forall i, Forall (loopEvent on) (fst (encodeTrace h on sc f i msgs)).
Proof.
  induction msgs as [|m msgs IH]; intros i; simpl; [constructor|].
  destruct (sc_Encode sc i); simpl; [repeat constructor|].
  specialize (IH (S i)).
  destruct (encodeTrace h on sc f (S i) msgs) as [evs r]. simpl in *.
  unfold encodeCalls. destruct on; simpl; repeat constructor; exact IH.
Qed.

Lemma allocCalls_loop (on : bool) (msgs : list MsgId) (lastCount : Z)
  (next : nat) :
  Forall (loopEvent on) (allocCalls msgs lastCount next).
Proof.
  eapply Forall_impl; [|apply allocCalls_events].
  intros e He. destruct e; solve [exact I | contradiction He].
Qed.

Lemma reset_loop (on : bool) (msgs : list MsgId) :
  Forall (loopEvent on) (map EvReset msgs).
Proof.
  eapply Forall_impl; [|apply reset_events].
  intros e He. destruct e; solve [exact I | contradiction He].
Qed.

Lemma successCalls_loop (h : Handler) (sc : Script) (messages : list MsgId)
  (f : FwdId) (w : World) :
  Forall (loopEvent (promOn w)) (successCalls h sc messages f w).
Proof.
  unfold successCalls. cbv zeta.
  apply Forall_loop_app; [apply forwardCalls_loop|].
  apply Forall_loop_app; [repeat constructor|].
  apply Forall_loop_app; [apply encodeCalls_loop|].
  apply Forall_loop_app; [repeat constructor | apply reset_loop].
Qed.

Lemma exitCalls_loop (h : Handler) (sc : Script) (messages : list MsgId)
  (f : FwdId) (w : World) (x : Exit) :
  Forall (loopEvent (promOn w)) (exitCalls h sc messages f w x).
Proof.
  destruct x; unfold exitCalls; cbv zeta.
  - repeat constructor.
  - repeat constructor.
  - apply forwardCalls_loop.
  - apply Forall_loop_app; [apply forwardCalls_loop|].
    apply Forall_loop_app; [repeat constructor|].
    apply Forall_loop_app; [apply encodeTrace_loop | repeat constructor].
  - apply Forall_loop_app; [apply forwardCalls_loop|].
    apply Forall_loop_app; [repeat constructor|].
    apply Forall_loop_app; [apply encodeCalls_loop | repeat constructor].
Qed.

Lemma exitRelease_loop (on : bool) (sc : Script) (f : FwdId) (x : Exit) :
  Forall (loopEvent on) (exitRelease sc f x).
Proof. destruct x; simpl; repeat constructor. Qed.

(** The shape of a run of the loop: the calls of the loop proper, then,
    if a cycle returned, one [deferHandle] on the batch in use and the
    final release. *)
Lemma Run_shape (h : Handler) (scripts : list Script) (messages : list MsgId)
  (f : FwdId) (w : World) (r : option Exit) (w' : World) :
  Run h scripts messages f w r w' ->
  exists body,
    Forall (loopEvent (promOn w)) body
    /\ match r with
       | None =>
           calls w' = calls w ++ body
           /\ closed w' = closed w /\ err w' = err w
           /\ conns w' = conns w /\ promOn w' = promOn w
       | Some x =>
           exists last rel,
             calls w' = calls w ++ body ++ deferCalls h last w ++ rel
             /\ (rel = [] \/ exists g, rel = [EvRelease g])
             /\ (closed w = handlerOpening ->
                 closed w' = handlerClosed
                 /\ conns w' = wrap32 (conns w - 1))
             /\ (closed w <> handlerOpening ->
                 closed w' = closed w /\ err w' = err w
                 /\ conns w' = conns w)
       end.
Proof.
  induction 1 as [m f w | sc rest m f w m' f' r w' Hx HR IH
                  | sc rest m f w x Hx].
  - exists []. split; [constructor|]. rewrite app_nil_r. auto.
  - destruct IH as (body & Hbody & Hres).
    destruct (cycle_continue_frame _ _ _ _ _ _ _ Hx)
      as (Hc & He & Hn & Hp).
    pose proof (cycle_calls h sc m f w) as Hcalls.
    rewrite (cycle_continue_since _ _ _ _ _ _ _ Hx) in Hcalls.
    rewrite Hp in Hbody.
    exists ((successCalls h sc m f w
             ++ allocCalls m (len (fst (sc_Decode sc m))) (poolNext w))
            ++ body).
    split.
    { apply Forall_loop_app; [|exact Hbody].
      apply Forall_loop_app; [apply successCalls_loop|apply allocCalls_loop]. }
    destruct r as [x|].
    + destruct Hres as (last & rel & Hcw & Hrel & Hopen & Hclosed).
      exists last, rel.
      rewrite (deferCalls_ext h last w _ Hc Hp) in Hcw.
      rewrite Hc, He, Hn in *.
      split; [|auto].
      rewrite Hcw, Hcalls, <- !app_assoc. reflexivity.
    + destruct Hres as (Hcw & Hc' & He' & Hn' & Hp').
      rewrite Hcw, Hcalls, <- !app_assoc.
      repeat split; congruence.
  - destruct (cycle_return _ _ _ _ _ _ Hx) as (Hw & _).
    exists (exitCalls h sc m f w x). split; [apply exitCalls_loop|].
    exists m, (exitRelease sc f x). rewrite Hw.
    split.
    { unfold exitWorld. cbv zeta.
      destruct (closed w =? handlerOpening); reflexivity. }
    split; [destruct x; simpl; eauto|]. split.
    + intros Ho.
      destruct (exitWorld_opening h m (failedCall h sc m f w x) w
                  (exitCalls h sc m f w x) (exitRelease sc f x) Ho)
        as (Hc & _ & Hn). auto.
    + intros Hnot. now apply exitWorld_closed.
Qed.

(** The same shape for [handle], from the world it is started in. *)
Lemma handle_shape (h : Handler) (first : FwdId) (scripts : list Script)
  (w : World) :
  let r := fst (handle h first scripts w) in
  let w' := snd (handle h first scripts w) in
  exists body,
    Forall (loopEvent (promOn w)) body
    /\ match r with
       | None =>
           calls w' = calls w ++ body
           /\ closed w' = closed w /\ err w' = err w
           /\ conns w' = conns w /\ promOn w' = promOn w
       | Some x =>
           exists last rel,
             calls w' = calls w ++ body ++ deferCalls h last w ++ rel
             /\ (rel = [] \/ exists g, rel = [EvRelease g])
             /\ (closed w = handlerOpening ->
                 closed w' = handlerClosed
                 /\ conns w' = wrap32 (conns w - 1))
             /\ (closed w <> handlerOpening ->
                 closed w' = closed w /\ err w' = err w
                 /\ conns w' = conns w)
       end.
Proof.
  cbv zeta. pose proof (handle_Run h first scripts w) as R. cbv zeta in R.
  apply Run_shape in R. cbn [closed err conns promOn calls] in R.
  destruct R as (body & Hbody & Hres).
  set (batch := seq (poolNext w) (Z.to_nat concurrent)) in *.
  set (init := EvPutMsgs [] :: EvGetMsgs concurrent batch
               :: map EvWithWaitGroup batch
               ++ [EvGetForwarder (ClusterID h) first]) in *.
  assert (Hinit : Forall (loopEvent (promOn w)) init).
  { subst init batch. repeat constructor. }
  exists (init ++ body). split; [now apply Forall_loop_app|].
  destruct (fst (handle h first scripts w)) as [x|].
  - destruct Hres as (last & rel & Hcw & Hrel & Hopen & Hclosed).
    exists last, rel.
    match type of Hcw with
    | context [deferCalls h last ?s] =>
        change (deferCalls h last s) with (deferCalls h last w) in Hcw
    end.
    split; [|auto]. rewrite Hcw, <- !app_assoc. reflexivity.
  - destruct Hres as (Hcw & Hrest). split; [|exact Hrest].
    rewrite Hcw, <- !app_assoc. reflexivity.
Qed.

(** Closes [flat_map phi part = []] for a part made of loop events. *)
Ltac by_loop_event :=
  let e := fresh "e" in let H := fresh "H" in
  intros e H; destruct e;
  solve [reflexivity | contradiction H | discriminate H].

(** ** The handler over a whole run *)

Lemma deferCalls_removed (h : Handler) (msgs : list MsgId) (w : World) :
  removed (deferCalls h msgs w) = [(ClusterID h, conn h)].
Proof.
  unfold deferCalls, closeEvents, closeCalls.
  destruct (closed w =? handlerOpening); destruct (promOn w); reflexivity.
Qed.

Lemma deferCalls_not_opening (h : Handler) (msgs : list MsgId) (w : World) :
  closed w <> handlerOpening ->
  deferCalls h msgs w
  = [EvRemoveConnection (ClusterID h) (conn h); EvPutMsgs msgs].
Proof.
  intros H. apply Z.eqb_neq in H. unfold deferCalls, closeEvents.
  now rewrite H.
Qed.

(** X1: while [handle] is in its loop, after any number of completed
    cycles, [h.closed], [h.err] and the counter are as they were, and the
    handler has neither closed the connection, nor deregistered it, nor
    decremented the gauge. *)
Theorem handle_running_leaves_handler_untouched :
  forall (h : Handler) (first : FwdId) (scripts : list Script) (w : World),
    fst (handle h first scripts w) = None ->
    let w' := snd (handle h first scripts w) in
    closed w' = closed w /\ err w' = err w /\ conns w' = conns w
    /\ connCloses (since w w') = []
    /\ removed (since w w') = []
    /\ connDecrs (since w w') = [].
Proof.
  intros h first scripts w Hr w'. subst w'.
  destruct (handle_shape h first scripts w) as (body & Hbody & Hres).
  rewrite Hr in Hres. destruct Hres as (Hcw & Hc & He & Hn & _).
  rewrite (since_app _ _ _ Hcw).
  split; [exact Hc|]. split; [exact He|]. split; [exact Hn|].
  unfold connCloses, removed, connDecrs.
  repeat split;
    now rewrite (flat_map_silent _ (loopEvent (promOn w)) body Hbody)
      by by_loop_event.
Qed.

Lemma handle_running_leaves_handler_untouched_witness :
  let w' := snd (handle sampleHandler sampleForwarder sampleScripts
                   sampleWorld) in
  closed w' = handlerOpening /\ conns w' = 1
  /\ connCloses (since sampleWorld w') = [].
Proof.
  destruct (handle_running_leaves_handler_untouched sampleHandler
              sampleForwarder sampleScripts sampleWorld eq_refl)
    as (Hc & _ & Hn & Hcc & _).
  exact (conj Hc (conj Hn Hcc)).
Defined.

(** X2: when [handle] returns on a handler that was open, the handler is
    closed, the counter went down by one, the connection was closed once
    and deregistered once; and from the deregistration on nothing is
    decoded, forwarded, encoded or acquired. *)
Theorem handle_return_closes_once :
  forall (h : Handler) (first : FwdId) (scripts : list Script) (w : World)
         (x : Exit),
    closed w = handlerOpening ->
    fst (handle h first scripts w) = Some x ->
    let w' := snd (handle h first scripts w) in
    closed w' = handlerClosed
    /\ conns w' = wrap32 (conns w - 1)
    /\ connCloses (since w w') = [conn h]
    /\ removed (since w w') = [(ClusterID h, conn h)]
    /\ exists before after,
         since w w' = before ++ after
         /\ connCloses before = [] /\ removed before = []
         /\ decoded after = [] /\ forwarded after = []
         /\ encoded after = [] /\ acquired after = [].
Proof.
  intros h first scripts w x Ho Hr w'. subst w'.
  destruct (handle_shape h first scripts w) as (body & Hbody & Hres).
  rewrite Hr in Hres.
  destruct Hres as (last & rel & Hcw & Hrel & Hopen & _).
  destruct (Hopen Ho) as (Hc & Hn).
  rewrite (since_app _ _ _ Hcw).
  assert (Hb1 : connCloses body = [])
    by (unfold connCloses;
        now rewrite (flat_map_silent _ (loopEvent (promOn w)) body Hbody)
          by by_loop_event).
  assert (Hb2 : removed body = [])
    by (unfold removed;
        now rewrite (flat_map_silent _ (loopEvent (promOn w)) body Hbody)
          by by_loop_event).
  split; [exact Hc|]. split; [exact Hn|]. split; [|split].
  - unfold connCloses in *. rewrite !flat_map_app, Hb1.
    fold (connCloses (deferCalls h last w)).
    rewrite (deferCalls_connCloses h last w Ho).
    destruct Hrel as [->|(g & ->)]; reflexivity.
  - unfold removed in *. rewrite !flat_map_app, Hb2.
    fold (removed (deferCalls h last w)). rewrite deferCalls_removed.
    destruct Hrel as [->|(g & ->)]; reflexivity.
  - exists body, (deferCalls h last w ++ rel).
    split; [reflexivity|]. split; [exact Hb1|]. split; [exact Hb2|].
    unfold decoded, forwarded, encoded, acquired.
    rewrite !flat_map_app. hush.
    destruct Hrel as [->|(g & ->)]; auto.
Qed.

Lemma handle_return_closes_once_witness :
  let w' := snd (handle sampleHandler sampleForwarder
                   [scriptOk 2; scriptDecodeError] sampleWorld) in
  closed w' = handlerClosed /\ conns w' = 0
  /\ connCloses (since sampleWorld w') = [42].
Proof.
  destruct (handle_return_closes_once sampleHandler sampleForwarder
              [scriptOk 2; scriptDecodeError] sampleWorld ExitDecode
              eq_refl eq_refl) as (Hc & Hn & Hcc & _).
  exact (conj Hc (conj Hn Hcc)).
Defined.

(** *** [handle] and [h.closed] *)

Lemma deferCalls_notCloseCall (h : Handler) (msgs : list MsgId) (w : World) :
  filter notCloseCall (deferCalls h msgs w)
  = [EvRemoveConnection (ClusterID h) (conn h); EvPutMsgs msgs].
Proof.
  unfold deferCalls, closeEvents, closeCalls.
  destruct (closed w =? handlerOpening); destruct (promOn w); reflexivity.
Qed.

Lemma exitWorld_frame (h : Handler) (messages : list MsgId)
  (e : option error) (w : World) (before after : list Event) :
  promOn (exitWorld h messages e w before after) = promOn w
  /\ poolNext (exitWorld h messages e w before after) = poolNext w.
Proof.
  unfold exitWorld. cbv zeta.
  destruct (closed w =? handlerOpening); auto.
Qed.

(** Two returning cycles that made the same calls before [deferHandle]
    and after it differ in the calls of [closeWithError] at most. *)
Lemma exitWorld_sim (h : Handler) (messages : list MsgId)
  (e1 e2 : option error) (w1 w2 : World) (before after : list Event) :
  promOn w1 = promOn w2 -> poolNext w1 = poolNext w2 ->
  promOn (exitWorld h messages e1 w1 before after)
  = promOn (exitWorld h messages e2 w2 before after)
  /\ poolNext (exitWorld h messages e1 w1 before after)
     = poolNext (exitWorld h messages e2 w2 before after)
  /\ filter notCloseCall
       (since w1 (exitWorld h messages e1 w1 before after))
     = filter notCloseCall
         (since w2 (exitWorld h messages e2 w2 before after)).
Proof.
  intros Hp Hn.
  destruct (exitWorld_frame h messages e1 w1 before after) as (-> & ->).
  destruct (exitWorld_frame h messages e2 w2 before after) as (-> & ->).
  rewrite !exitWorld_since, !filter_app, !deferCalls_notCloseCall. auto.
Qed.

(** One cycle from two worlds that agree on the telemetry switch and on
    the pool: same outcome, same calls but for those of
    [closeWithError]. *)
Lemma cycle_sim (h : Handler) (sc : Script) (messages : list MsgId)
  (f : FwdId) (w1 w2 : World) :
  promOn w1 = promOn w2 -> poolNext w1 = poolNext w2 ->
  fst (cycle h sc messages f w1) = fst (cycle h sc messages f w2)
  /\ promOn (snd (cycle h sc messages f w1))
     = promOn (snd (cycle h sc messages f w2))
  /\ poolNext (snd (cycle h sc messages f w1))
     = poolNext (snd (cycle h sc messages f w2))
  /\ filter notCloseCall (since w1 (snd (cycle h sc messages f w1)))
     = filter notCloseCall (since w2 (snd (cycle h sc messages f w2))).
Proof.
  intros Hp Hn.
  destruct (sc_Decode sc messages) as [msgs [e|]] eqn:Hd.
  { rewrite (cycle_decode_error h sc messages f w1 msgs e Hd),
      (cycle_decode_error h sc messages f w2 msgs e Hd). cbn [fst snd].
    split; [reflexivity | now apply exitWorld_sim]. }
  assert (Hcheck : (sc_State sc = ForwarderStateClosed
                    /\ closeWhenChange h = true)
                   \/ (sc_State sc = ForwarderStateOpen
                       \/ closeWhenChange h = false)).
  { destruct (sc_State sc); destruct (closeWhenChange h); auto. }
  destruct Hcheck as [[Hs Hc]|Hs].
  { rewrite (cycle_topology_closed h sc messages f w1 msgs Hd Hs Hc),
      (cycle_topology_closed h sc messages f w2 msgs Hd Hs Hc).
    cbn [fst snd]. split; [reflexivity | now apply exitWorld_sim]. }
  destruct (sc_Forward sc) as [e|] eqn:Hf.
  { rewrite (cycle_forward_error h sc messages f w1 msgs e Hd Hs Hf),
      (cycle_forward_error h sc messages f w2 msgs e Hd Hs Hf).
    cbn [fst snd]. split; [reflexivity | now apply exitWorld_sim]. }
  destruct (snd (encodeTrace h (promOn w2) sc (checkedForwarder sc f) 0 msgs))
    as [e|] eqn:He2.
  { assert (He1 := He2). rewrite <- Hp in He1.
    rewrite (cycle_encode_error h sc messages f w1 msgs e Hd Hs Hf He1),
      (cycle_encode_error h sc messages f w2 msgs e Hd Hs Hf He2).
    cbn [fst snd]. rewrite Hp.
    split; [reflexivity | now apply exitWorld_sim]. }
  assert (He1 := He2). rewrite <- Hp in He1.
  destruct (sc_Flush sc) as [e|] eqn:Hfl.
  { rewrite (cycle_flush_error h sc messages f w1 msgs e Hd Hs Hf He1 Hfl),
      (cycle_flush_error h sc messages f w2 msgs e Hd Hs Hf He2 Hfl).
    cbn [fst snd]. rewrite Hp.
    split; [reflexivity | now apply exitWorld_sim]. }
  rewrite (cycle_success h sc messages f w1 msgs Hd Hs Hf He1 Hfl),
    (cycle_success h sc messages f w2 msgs Hd Hs Hf He2 Hfl).
  rewrite !allocMaxConcurrent_run. cbv zeta. unfold addCalls.
  cbn [poolNext promOn closed err conns calls].
  rewrite ?Hp, ?Hn.
  destruct (0 <? allocSize (len messages) (len msgs));
    cbn [fst snd promOn poolNext];
    (split; [reflexivity|]); (split; [reflexivity|]);
    (split; [reflexivity|]);
    erewrite !since_app
      by (cbn [calls]; rewrite <- ?app_assoc; reflexivity);
    reflexivity.
Qed.

Lemma handleLoop_sim (h : Handler) (scripts : list Script) :
  forall (messages : list MsgId) (f : FwdId) (w1 w2 : World),
    promOn w1 = promOn w2 -> poolNext w1 = poolNext w2 ->
    fst (handleLoop h scripts messages f w1)
    = fst (handleLoop h scripts messages f w2)
    /\ exists evs1 evs2,
         calls (snd (handleLoop h scripts messages f w1)) = calls w1 ++ evs1
         /\ calls (snd (handleLoop h scripts messages f w2))
            = calls w2 ++ evs2
         /\ filter notCloseCall evs1 = filter notCloseCall evs2.
Proof.
  induction scripts as [|sc rest IH]; intros messages f w1 w2 Hp Hn;
    cbn [handleLoop].
  - split; [reflexivity|]. exists [], []. now rewrite !app_nil_r.
  - unfold bind.
    destruct (cycle_sim h sc messages f w1 w2 Hp Hn)
      as (Hfst & Hp' & Hn' & Hcalls).
    pose proof (cycle_calls h sc messages f w1) as Hc1.
    pose proof (cycle_calls h sc messages f w2) as Hc2.
    destruct (cycle h sc messages f w1) as [n1 w1'].
    destruct (cycle h sc messages f w2) as [n2 w2'].
    cbn [fst snd] in *. subst n2.
    destruct n1 as [m' f'|x].
    + destruct (IH m' f' w1' w2' Hp' Hn')
        as (Hres & evs1 & evs2 & He1 & He2 & Hfil).
      split; [exact Hres|].
      exists (since w1 w1' ++ evs1), (since w2 w2' ++ evs2).
      rewrite He1, He2, Hc1, Hc2, <- !app_assoc, !filter_app, Hcalls, Hfil.
      auto.
    + split; [reflexivity|].
      exists (since w1 w1'), (since w2 w2'). auto.
Qed.

Lemma flat_map_notCloseCall {C} (phi : Event -> list C) (evs : list Event) :
  (forall e, notCloseCall e = false -> phi e = []) ->
  flat_map phi (filter notCloseCall evs) = flat_map phi evs.
Proof.
  intros H. induction evs as [|e evs IH]; [reflexivity|].
  cbn [filter flat_map]. destruct (notCloseCall e) eqn:E.
  - cbn [flat_map]. now rewrite IH.
  - now rewrite (H e E), IH.
Qed.

(** X3: [handle] does not look at [h.closed].  Started on a handler that
    is already closed it runs as it does on an open one: it leaves the
    loop the same way and makes the same calls, in the same order, except
    for those of [closeWithError]; in particular it decodes the same
    batches.  [h.closed], [h.err] and the counter stay as they were, the
    connection is not closed again nor the gauge decremented, yet when
    [handle] returns the connection has been deregistered once more. *)
Theorem handle_on_closed_handler :
  forall (h : Handler) (first : FwdId) (scripts : list Script) (w : World),
    closed w <> handlerOpening ->
    let r := handle h first scripts w in
    let ro := handle h first scripts (opened w) in
    fst r = fst ro
    /\ filter notCloseCall (since w (snd r))
       = filter notCloseCall (since (opened w) (snd ro))
    /\ decoded (since w (snd r)) = decoded (since (opened w) (snd ro))
    /\ closed (snd r) = closed w /\ err (snd r) = err w
    /\ conns (snd r) = conns w
    /\ connCloses (since w (snd r)) = []
    /\ connDecrs (since w (snd r)) = []
    /\ (forall x, fst r = Some x ->
                  removed (since w (snd r)) = [(ClusterID h, conn h)]).
Proof.
  intros h first scripts w Hnot r ro. subst r ro.
  assert (Hsim : fst (handle h first scripts w)
                 = fst (handle h first scripts (opened w))
                 /\ filter notCloseCall
                      (since w (snd (handle h first scripts w)))
                    = filter notCloseCall
                        (since (opened w)
                           (snd (handle h first scripts (opened w))))).
  { unfold handle, bind. rewrite !allocMaxConcurrent_run. cbv zeta.
    change (allocSize (len (@nil MsgId)) (len (@nil MsgId))) with concurrent.
    change (0 <? concurrent) with true. cbv iota. rewrite !emit_run.
    unfold addCalls, opened.
    cbn [closed err conns promOn poolNext calls].
    match goal with
    | |- fst (handleLoop h scripts ?m first ?w1)
         = fst (handleLoop h scripts ?m first ?w2) /\ _ =>
        destruct (handleLoop_sim h scripts m first w1 w2 eq_refl eq_refl)
          as (Hres & evs1 & evs2 & He1 & He2 & Hfil)
    end.
    split; [exact Hres|].
    cbn [calls] in He1, He2.
    erewrite !since_app
      by (first [rewrite He1 | rewrite He2]; cbn [calls];
          rewrite <- !app_assoc; reflexivity).
    rewrite !filter_app, Hfil. reflexivity. }
  destruct Hsim as (Hres & Hfil).
  split; [exact Hres|]. split; [exact Hfil|]. split.
  { unfold decoded.
    rewrite <- (flat_map_notCloseCall _ (since w _)),
      <- (flat_map_notCloseCall _ (since (opened w) _)), Hfil;
      [reflexivity| |]; intros e He; destruct e;
      solve [reflexivity | discriminate He]. }
  destruct (handle_shape h first scripts w) as (body & Hbody & Hshape).
  assert (Hb : connCloses body = [] /\ connDecrs body = []
               /\ removed body = []).
  { unfold connCloses, connDecrs, removed.
    repeat split;
      now rewrite (flat_map_silent _ (loopEvent (promOn w)) body Hbody)
        by by_loop_event. }
  destruct Hb as (Hb1 & Hb2 & Hb3).
  destruct (fst (handle h first scripts w)) as [x|].
  - destruct Hshape as (last & rel & Hcw & Hrel & _ & Hclosed).
    destruct (Hclosed Hnot) as (Hc & He & Hn).
    rewrite (since_app _ _ _ Hcw), (deferCalls_not_opening h last w Hnot).
    split; [exact Hc|]. split; [exact He|]. split; [exact Hn|].
    unfold connCloses, connDecrs, removed in *. rewrite !flat_map_app.
    rewrite Hb1, Hb2, Hb3.
    destruct Hrel as [->|(g & ->)]; repeat split; reflexivity.
  - destruct Hshape as (Hcw & Hc & He & Hn & _).
    rewrite (since_app _ _ _ Hcw).
    split; [exact Hc|]. split; [exact He|]. split; [exact Hn|].
    split; [exact Hb1|]. split; [exact Hb2|]. intros x Hx. discriminate Hx.
Qed.

Lemma handle_on_closed_handler_witness :
  let r := handle sampleHandler sampleForwarder
             [scriptOk 2; scriptForwardError] sampleClosedWorld in
  let ro := handle sampleHandler sampleForwarder
              [scriptOk 2; scriptForwardError] (opened sampleClosedWorld) in
  fst r = fst ro
  /\ decoded (since sampleClosedWorld (snd r))
     = decoded (since (opened sampleClosedWorld) (snd ro))
  /\ err (snd r) = Some "EOF"%string.
Proof.
  destruct (handle_on_closed_handler sampleHandler sampleForwarder
              [scriptOk 2; scriptForwardError] sampleClosedWorld)
    as (Hres & _ & Hdec & _ & He & _).
  - discriminate.
  - exact (conj Hres (conj Hdec He)).
Defined.

(** ** The message pool over a whole run *)

Lemma allocMaxConcurrent_pool (msgs : list MsgId) (lastCount : Z) (w : World) :
  putBatches (allocCalls msgs lastCount (poolNext w))
  ++ [fst (allocMaxConcurrent msgs lastCount w)]
  = msgs :: gotBatches (allocCalls msgs lastCount (poolNext w)).
Proof.
  rewrite allocMaxConcurrent_run. unfold allocCalls. cbv zeta.
  destruct (0 <? allocSize (len msgs) lastCount); [|reflexivity].
  unfold putBatches, gotBatches. cbn [flat_map app fst].
  rewrite !(flat_map_silent _ (fun e => exists m, e = EvWithWaitGroup m)).
  - reflexivity.
  - apply Forall_map, Forall_forall. eauto.
  - intros e (m & ->). reflexivity.
  - apply Forall_map, Forall_forall. eauto.
  - intros e (m & ->). reflexivity.
Qed.

Lemma successCalls_pool (h : Handler) (sc : Script) (messages : list MsgId)
  (f : FwdId) (w : World) :
  putBatches (successCalls h sc messages f w) = []
  /\ gotBatches (successCalls h sc messages f w) = []
  /\ decoded (successCalls h sc messages f w) = [messages].
Proof.
  unfold putBatches, gotBatches, decoded, successCalls, forwardCalls,
    checkCalls. cbv zeta.
  rewrite !flat_map_app. hush. destruct (sc_State sc); auto.
Qed.

Lemma exitCalls_pool (h : Handler) (sc : Script) (messages : list MsgId)
  (f : FwdId) (w : World) (x : Exit) :
  gotBatches (exitCalls h sc messages f w x ++ deferCalls h messages w
              ++ exitRelease sc f x) = []
  /\ decoded (exitCalls h sc messages f w x ++ deferCalls h messages w
              ++ exitRelease sc f x) = [messages].
Proof.
  unfold gotBatches, decoded.
  destruct x; unfold exitCalls, exitRelease, forwardCalls, checkCalls;
    cbv zeta; rewrite !flat_map_app; hush; destruct (sc_State sc); auto.
Qed.

(** Over the loop, from the batch it is entered with: every batch drawn
    from the pool goes back to it, in the order drawn. *)
Lemma Run_pool (h : Handler) (scripts : list Script) (messages : list MsgId)
  (f : FwdId) (w : World) (r : option Exit) (w' : World) :
  Run h scripts messages f w r w' ->
  exists evs,
    calls w' = calls w ++ evs
    /\ match r with
       | Some _ => putBatches evs = messages :: gotBatches evs
       | None =>
           exists current,
             putBatches evs ++ [current] = messages :: gotBatches evs
       end.
Proof.
  induction 1 as [m f w | sc rest m f w m' f' r w' Hx HR IH
                  | sc rest m f w x Hx].
  - exists []. rewrite app_nil_r. split; [reflexivity|]. now exists m.
  - destruct IH as (evs & Hcw & Hres).
    pose proof (cycle_calls h sc m f w) as Hcalls.
    rewrite (cycle_continue_since _ _ _ _ _ _ _ Hx) in Hcalls.
    destruct (cycle_continue _ _ _ _ _ _ _ Hx) as (_ & E & _).
    destruct (successCalls_pool h sc m f w) as (Hp & Hg & _).
    pose proof (allocMaxConcurrent_pool m (len (fst (sc_Decode sc m)))
                  (addCalls w (successCalls h sc m f w))) as Ha.
    rewrite <- E in Ha. cbn [fst poolNext addCalls] in Ha.
    set (first := successCalls h sc m f w
                  ++ allocCalls m (len (fst (sc_Decode sc m))) (poolNext w))
      in *.
    assert (Hfirst : putBatches first ++ [m'] = m :: gotBatches first).
    { subst first. unfold putBatches, gotBatches in *.
      rewrite !flat_map_app, Hp, Hg. exact Ha. }
    exists (first ++ evs). split; [now rewrite Hcw, Hcalls, <- app_assoc|].
    unfold putBatches, gotBatches in *. rewrite !flat_map_app.
    destruct r as [x|].
    + rewrite Hres, app_comm_cons, <- Hfirst, <- app_assoc. reflexivity.
    + destruct Hres as (current & Hres). exists current.
      rewrite <- app_assoc, Hres, app_comm_cons, <- Hfirst, <- app_assoc.
      reflexivity.
  - exists (since w (snd (cycle h sc m f w))).
    split; [apply cycle_calls|].
    rewrite (cycle_return_since _ _ _ _ _ _ Hx).
    destruct (exitCalls_pool h sc m f w x) as (Hg & _). rewrite Hg.
    destruct (exitCalls_quiet h sc m f w x) as (Hput & _).
    unfold putBatches in *. rewrite !flat_map_app, Hput.
    fold (putBatches (deferCalls h m w)). rewrite deferCalls_putBatches.
    destruct x; reflexivity.
Qed.

(** X4: over a run of [handle], the batches given back through [PutMsgs]
    are the nil batch it starts from followed by the batches drawn through
    [GetMsgs], in the order drawn: once [handle] has returned every batch
    drawn has been given back exactly once; while it is in its loop only
    the batch in use is still out. *)
Theorem handle_pool_balance :
  forall (h : Handler) (first : FwdId) (scripts : list Script) (w : World),
    let evs := since w (snd (handle h first scripts w)) in
    match fst (handle h first scripts w) with
    | Some _ => putBatches evs = [] :: gotBatches evs
    | None =>
        exists current, putBatches evs ++ [current] = [] :: gotBatches evs
    end.
Proof.
  intros h first scripts w evs. subst evs.
  pose proof (handle_Run h first scripts w) as R. cbv zeta in R.
  apply Run_pool in R. cbn [calls] in R.
  destruct R as (evs & Hcw & Hres).
  rewrite <- app_assoc in Hcw. rewrite (since_app _ _ _ Hcw).
  set (batch := seq (poolNext w) (Z.to_nat concurrent)) in *.
  assert (Hp : forall l,
             putBatches ((EvPutMsgs [] :: EvGetMsgs concurrent batch
                          :: map EvWithWaitGroup batch
                          ++ [EvGetForwarder (ClusterID h) first]) ++ l)
             = [] :: putBatches l) by reflexivity.
  assert (Hg : forall l,
             gotBatches ((EvPutMsgs [] :: EvGetMsgs concurrent batch
                          :: map EvWithWaitGroup batch
                          ++ [EvGetForwarder (ClusterID h) first]) ++ l)
             = batch :: gotBatches l) by reflexivity.
  rewrite Hp, Hg.
  destruct (fst (handle h first scripts w)) as [x|].
  - now rewrite Hres.
  - destruct Hres as (current & Hres). exists current.
    cbn [app]. now rewrite Hres.
Qed.

(** ** The batches handed to the codec *)

Lemma capacities_range (n : Z) :
  In n capacities -> concurrent <= n <= maxConcurrent.
Proof.
  unfold capacities, concurrent, maxConcurrent. simpl.
  intros H. repeat (destruct H as [<-|H]; [lia|]). contradiction.
Qed.

Lemma Run_decoded (h : Handler) (scripts : list Script) (messages : list MsgId)
  (f : FwdId) (w : World) (r : option Exit) (w' : World) :
  Run h scripts messages f w r w' ->
  In (len messages) capacities ->
  exists evs,
    calls w' = calls w ++ evs
    /\ Forall (fun batch => In (len batch) capacities) (decoded evs).
Proof.
  induction 1 as [m f w | sc rest m f w m' f' r w' Hx HR IH
                  | sc rest m f w x Hx]; intros Hcap.
  - exists []. rewrite app_nil_r. split; [reflexivity | constructor].
  - pose proof (cycle_calls h sc m f w) as Hcalls.
    rewrite (cycle_continue_since _ _ _ _ _ _ _ Hx) in Hcalls.
    destruct (cycle_continue _ _ _ _ _ _ _ Hx) as (_ & E & _).
    assert (Hcap' : In (len m') capacities).
    { replace m' with (fst (m', snd (cycle h sc m f w))) by reflexivity.
      rewrite E. apply allocMaxConcurrent_capacities. now right. }
    destruct (IH Hcap') as (evs & Hcw & Hall).
    destruct (successCalls_pool h sc m f w) as (_ & _ & Hd).
    eexists. split; [rewrite Hcw, Hcalls, <- app_assoc; reflexivity|].
    unfold decoded in *. rewrite !flat_map_app, Hd. hush.
    constructor; assumption.
  - exists (since w (snd (cycle h sc m f w))).
    split; [apply cycle_calls|].
    rewrite (cycle_return_since _ _ _ _ _ _ Hx).
    destruct (exitCalls_pool h sc m f w x) as (_ & Hd). rewrite Hd.
    constructor; [exact Hcap | constructor].
Qed.

(** X5: every batch [handle] hands to [Decode], in any cycle of any run,
    holds at least [concurrent] and at most [maxConcurrent] messages. *)
Theorem handle_decode_batch_capacity :
  forall (h : Handler) (first : FwdId) (scripts : list Script) (w : World),
    Forall (fun batch => concurrent <= len batch <= maxConcurrent)
           (decoded (since w (snd (handle h first scripts w)))).
Proof.
  intros h first scripts w.
  pose proof (handle_Run h first scripts w) as R. cbv zeta in R.
  apply Run_decoded in R; [|rewrite len_seq; vm_compute; auto].
  cbn [calls] in R. destruct R as (evs & Hcw & Hall).
  rewrite <- app_assoc in Hcw. rewrite (since_app _ _ _ Hcw).
  assert (Hd : forall l,
             decoded ((EvPutMsgs []
                       :: EvGetMsgs concurrent
                            (seq (poolNext w) (Z.to_nat concurrent))
                       :: map EvWithWaitGroup
                            (seq (poolNext w) (Z.to_nat concurrent))
                       ++ [EvGetForwarder (ClusterID h) first]) ++ l)
             = decoded l) by reflexivity.
  rewrite Hd. eapply Forall_impl; [|exact Hall].
  intros batch. apply capacities_range.
Qed.

(** ** The encode loop *)

Lemma encodeTrace_stop (h : Handler) (on : bool) (sc : Script) (f : FwdId)
  (msgs : list MsgId) :
  forall (i : nat) (e : error),
    snd (encodeTrace h on sc f i msgs) = Some e ->
    exists k,
      (k < List.length msgs)%nat
      /\ sc_Encode sc (i + k)%nat = Some e
      /\ (forall j, (j < k)%nat -> sc_Encode sc (i + j)%nat = None)
      /\ encoded (fst (encodeTrace h on sc f i msgs))
         = map (fun m => (m, f)) (firstn (S k) msgs)
      /\ markedEnd (fst (encodeTrace h on sc f i msgs)) = firstn k msgs
      /\ subsReset (fst (encodeTrace h on sc f i msgs)) = firstn k msgs.
Proof.
  induction msgs as [|m rest IH]; intros i e H; simpl in H;
    [discriminate H|].
  cbn [encodeTrace].
  destruct (sc_Encode sc i) as [e0|] eqn:Ei.
  - simpl in H. injection H as ->. exists 0%nat.
    rewrite Nat.add_0_r. repeat split; auto.
    + simpl. lia.
    + intros j Hj. lia.
  - specialize (IH (S i) e).
    destruct (encodeTrace h on sc f (S i) rest) as [evs r] eqn:E.
    cbn [fst snd] in *.
    destruct (IH H) as (k & Hk & Hfail & Hbefore & Henc & Hmark & Hsubs).
    exists (S k). split; [simpl; lia|]. split.
    { now replace (i + S k)%nat with (S i + k)%nat by lia. }
    split.
    { intros [|j] Hj; [now rewrite Nat.add_0_r|].
      replace (i + S j)%nat with (S i + j)%nat by lia.
      apply Hbefore. lia. }
    unfold encoded, markedEnd, subsReset in *.
    rewrite !flat_map_app, Henc, Hmark, Hsubs.
    unfold encodeCalls. destruct on; auto.
Qed.

(** X6: when the encode loop stops on an error, it stopped at the first
    message whose [Encode] failed: the messages before it were encoded,
    marked ended and had their sub-requests cleared, once each and in
    order; the failing message was handed to [Encode] and nothing more;
    the messages after it were not touched. *)
Theorem encodeLoop_stops_at_first_failure :
  forall (h : Handler) (sc : Script) (f : FwdId) (msgs : list MsgId)
         (w : World) (e : error),
    fst (encodeLoop h sc f 0 msgs w) = Some e ->
    let evs := since w (snd (encodeLoop h sc f 0 msgs w)) in
    exists k,
      (k < List.length msgs)%nat
      /\ sc_Encode sc k = Some e
      /\ (forall j, (j < k)%nat -> sc_Encode sc j = None)
      /\ encoded evs = map (fun m => (m, f)) (firstn (S k) msgs)
      /\ markedEnd evs = firstn k msgs
      /\ subsReset evs = firstn k msgs.
Proof.
  intros h sc f msgs w e H evs. subst evs.
  rewrite encodeLoop_run in *. cbn [fst snd] in *.
  rewrite (since_app w (addCalls w _) _ eq_refl).
  apply (encodeTrace_stop h (promOn w) sc f msgs 0 e H).
Qed.

Lemma encodeLoop_stops_at_first_failure_witness :
  let evs := since sampleWorld
               (snd (encodeLoop sampleHandler scriptEncodeError
                       sampleForwarder 0 [0; 1; 2]%nat sampleWorld)) in
  exists k,
    encoded evs = map (fun m => (m, sampleForwarder))
                      (firstn (S k) [0; 1; 2]%nat)
    /\ markedEnd evs = firstn k [0; 1; 2]%nat.
Proof.
  destruct (encodeLoop_stops_at_first_failure sampleHandler
              scriptEncodeError sampleForwarder [0; 1; 2]%nat sampleWorld
              "encode"%string eq_refl)
    as (k & _ & _ & _ & Henc & Hmark & _).
  exists k. exact (conj Henc Hmark).
Defined.

(** ** Request and response order over a whole run *)

Lemma forwardedAll_app (a b : list Event) :
  forwardedAll (a ++ b) = forwardedAll a ++ forwardedAll b.
Proof. unfold forwardedAll, forwarded. now rewrite !flat_map_app. Qed.

Lemma encodedAll_app (a b : list Event) :
  encodedAll (a ++ b) = encodedAll a ++ encodedAll b.
Proof. unfold encodedAll, encoded. now rewrite flat_map_app, map_app. Qed.

Lemma quiet_order (P : Event -> Prop) (evs : list Event) :
  Forall P evs ->
  (forall e, P e -> match e with
                    | EvForward _ _ | EvEncode _ _ => False
                    | _ => True
                    end) ->
  forwardedAll evs = [] /\ encodedAll evs = [].
Proof.
  intros H HP. unfold forwardedAll, encodedAll, forwarded, encoded.
  rewrite !(flat_map_silent _ P evs H); [auto| |];
    intros e He; specialize (HP e He); destruct e;
    solve [reflexivity | contradiction HP].
Qed.

Lemma forwardCalls_order (h : Handler) (sc : Script)
  (messages msgs : list MsgId) (f : FwdId) :
  forwardedAll (forwardCalls h sc messages msgs f) = msgs
  /\ encodedAll (forwardCalls h sc messages msgs f) = [].
Proof.
  unfold forwardCalls, checkCalls, forwardedAll, encodedAll.
  destruct (sc_State sc); simpl; now rewrite app_nil_r.
Qed.

Lemma encodeCalls_order (h : Handler) (on : bool) (f : FwdId)
  (msgs : list MsgId) :
  forwardedAll (flat_map (encodeCalls h on f) msgs) = []
  /\ encodedAll (flat_map (encodeCalls h on f) msgs) = msgs.
Proof.
  split.
  - unfold forwardedAll, forwarded.
    now rewrite (flat_map_silent _ encodeEvent _
                   (encodeCalls_events h on f msgs)) by by_event.
  - unfold encodedAll. rewrite encodeCalls_encoded, map_map. apply map_id.
Qed.

Lemma encodeTrace_order (h : Handler) (on : bool) (sc : Script) (f : FwdId)
  (msgs : list MsgId) :
  forall i,
    forwardedAll (fst (encodeTrace h on sc f i msgs)) = []
    /\ exists rest,
         msgs = encodedAll (fst (encodeTrace h on sc f i msgs)) ++ rest.
Proof.
  intros i. split.
  - unfold forwardedAll, forwarded.
    now rewrite (flat_map_silent _ encodeEvent _
                   (encodeTrace_events h on sc f msgs i)) by by_event.
  - revert i. induction msgs as [|m rest IH]; intros i; cbn [encodeTrace].
    + now exists [].
    + destruct (sc_Encode sc i).
      * now exists rest.
      * destruct (IH (S i)) as (tl & Htl).
        destruct (encodeTrace h on sc f (S i) rest) as [evs r].
        cbn [fst] in *. exists tl. rewrite encodedAll_app.
        unfold encodeCalls.
        destruct on; cbn; now rewrite <- Htl.
Qed.

(** Forwarded and encoded messages of one cycle. *)
Lemma cycle_order (h : Handler) (sc : Script) (messages : list MsgId)
  (f : FwdId) (w : World) :
  let evs := since w (snd (cycle h sc messages f w)) in
  match fst (cycle h sc messages f w) with
  | Return ExitForward | Return ExitEncode =>
      exists rest, forwardedAll evs = encodedAll evs ++ rest
  | _ => forwardedAll evs = encodedAll evs
  end.
Proof.
  cbv zeta.
  assert (Hdefer : forall m, forwardedAll (deferCalls h m w) = []
                             /\ encodedAll (deferCalls h m w) = []).
  { intros m. apply (quiet_order deferEvent); [apply deferCalls_events|].
    intros e He. destruct e; solve [exact I | contradiction He]. }
  destruct (fst (cycle h sc messages f w)) as [m' f'|x] eqn:Hx.
  - rewrite (cycle_continue_since _ _ _ _ _ _ _ Hx).
    unfold successCalls. cbv zeta.
    rewrite !forwardedAll_app, !encodedAll_app.
    destruct (forwardCalls_order h sc messages (fst (sc_Decode sc messages)) f)
      as (-> & ->).
    destruct (encodeCalls_order h (promOn w) (checkedForwarder sc f)
                (fst (sc_Decode sc messages))) as (-> & ->).
    destruct (quiet_order resetEvent _
                (reset_events (fst (sc_Decode sc messages)))) as (-> & ->).
    { intros e He. destruct e; solve [exact I | contradiction He]. }
    destruct (quiet_order allocEvent _
                (allocCalls_events messages
                   (len (fst (sc_Decode sc messages))) (poolNext w)))
      as (-> & ->).
    { intros e He. destruct e; solve [exact I | contradiction He]. }
    cbn. now rewrite !app_nil_r.
  - rewrite (cycle_return_since _ _ _ _ _ _ Hx).
    rewrite !forwardedAll_app, !encodedAll_app.
    destruct (Hdefer messages) as (-> & ->).
    destruct x; unfold exitCalls, exitRelease; cbv zeta;
      rewrite ?forwardedAll_app, ?encodedAll_app.
    + reflexivity.
    + reflexivity.
    + destruct (forwardCalls_order h sc messages
                  (fst (sc_Decode sc messages)) f) as (-> & ->).
      exists (fst (sc_Decode sc messages)). cbn. now rewrite app_nil_r.
    + destruct (forwardCalls_order h sc messages
                  (fst (sc_Decode sc messages)) f) as (-> & ->).
      destruct (encodeTrace_order h (promOn w) sc (checkedForwarder sc f)
                  (fst (sc_Decode sc messages)) 0) as (-> & rest & Hrest).
      exists rest. cbn. rewrite !app_nil_r. exact Hrest.
    + destruct (forwardCalls_order h sc messages
                  (fst (sc_Decode sc messages)) f) as (-> & ->).
      destruct (encodeCalls_order h (promOn w) (checkedForwarder sc f)
                  (fst (sc_Decode sc messages))) as (-> & ->).
      cbn. now rewrite !app_nil_r.
Qed.

Lemma Run_order (h : Handler) (scripts : list Script) (messages : list MsgId)
  (f : FwdId) (w : World) (r : option Exit) (w' : World) :
  Run h scripts messages f w r w' ->
  exists evs,
    calls w' = calls w ++ evs
    /\ match r with
       | Some ExitForward | Some ExitEncode =>
           exists rest, forwardedAll evs = encodedAll evs ++ rest
       | _ => forwardedAll evs = encodedAll evs
       end.
Proof.
  induction 1 as [m f w | sc rest m f w m' f' r w' Hx HR IH
                  | sc rest m f w x Hx].
  - exists []. rewrite app_nil_r. auto.
  - destruct IH as (evs & Hcw & Hres).
    pose proof (cycle_calls h sc m f w) as Hcalls.
    pose proof (cycle_order h sc m f w) as Ho. cbv zeta in Ho.
    rewrite Hx in Ho.
    exists (since w (snd (cycle h sc m f w)) ++ evs).
    split; [now rewrite Hcw, Hcalls, <- app_assoc|].
    rewrite forwardedAll_app, encodedAll_app, Ho.
    destruct r as [[| | | |]|];
      try (now rewrite Hres);
      destruct Hres as (tl & ->); exists tl; now rewrite <- app_assoc.
  - pose proof (cycle_order h sc m f w) as Ho. cbv zeta in Ho.
    rewrite Hx in Ho.
    exists (since w (snd (cycle h sc m f w))).
    split; [apply cycle_calls|]. destruct x; exact Ho.
Qed.

(** X7: over a whole run of [handle], the messages handed to [Encode] are,
    in order, the messages handed to [Forward]: all of them while the
    handler is in its loop and when it returns on a decode or flush error
    or on a topology change, and an initial part of them when it returns
    on a forward or encode error.  No message is encoded twice, out of
    order, or without having been forwarded. *)
Theorem handle_encodes_in_forward_order :
  forall (h : Handler) (first : FwdId) (scripts : list Script) (w : World),
    let evs := since w (snd (handle h first scripts w)) in
    match fst (handle h first scripts w) with
    | Some ExitForward | Some ExitEncode =>
        exists rest, forwardedAll evs = encodedAll evs ++ rest
    | _ => forwardedAll evs = encodedAll evs
    end.
Proof.
  intros h first scripts w evs. subst evs.
  pose proof (handle_Run h first scripts w) as R. cbv zeta in R.
  apply Run_order in R. cbn [calls] in R.
  destruct R as (evs & Hcw & Hres).
  rewrite <- app_assoc in Hcw. rewrite (since_app _ _ _ Hcw).
  rewrite forwardedAll_app, encodedAll_app.
  assert (Hi : forall l : list Event,
             forwardedAll (EvPutMsgs []
                           :: EvGetMsgs concurrent
                                (seq (poolNext w) (Z.to_nat concurrent))
                           :: map EvWithWaitGroup
                                (seq (poolNext w) (Z.to_nat concurrent))
                           ++ [EvGetForwarder (ClusterID h) first]) = []
             /\ encodedAll (EvPutMsgs []
                            :: EvGetMsgs concurrent
                                 (seq (poolNext w) (Z.to_nat concurrent))
                            :: map EvWithWaitGroup
                                 (seq (poolNext w) (Z.to_nat concurrent))
                            ++ [EvGetForwarder (ClusterID h) first]) = [])
    by (intros; split; reflexivity).
  destruct (Hi []) as (-> & ->). exact Hres.
Qed.

(** ** Telemetry *)

Lemma deferCalls_connDecrs (h : Handler) (msgs : list MsgId) (w : World) :
  connDecrs (deferCalls h msgs w)
  = if promOn w then map (fun _ => Name h) (connCloses (deferCalls h msgs w))
    else [].
Proof.
  unfold deferCalls, closeEvents, closeCalls.
  destruct (closed w =? handlerOpening); destruct (promOn w); reflexivity.
Qed.

(** X8: over a whole run of [handle], the connection gauge is decremented
    once for each close of the connection when telemetry is on and never
    when it is off, and with telemetry off no latency is recorded. *)
Theorem handle_telemetry_follows_switch :
  forall (h : Handler) (first : FwdId) (scripts : list Script) (w : World),
    let evs := since w (snd (handle h first scripts w)) in
    connDecrs evs
    = (if promOn w then map (fun _ => Name h) (connCloses evs) else [])
    /\ (promOn w = false -> proxyTimes evs = [])
    /\ connIncrs evs = [].
Proof.
  intros h first scripts w evs. subst evs.
  destruct (handle_shape h first scripts w) as (body & Hbody & Hres).
  assert (Hsil : connDecrs body = [] /\ connCloses body = []
                 /\ connIncrs body = []
                 /\ (promOn w = false -> proxyTimes body = [])).
  { unfold connDecrs, connCloses, connIncrs, proxyTimes.
    repeat split;
      try (now rewrite (flat_map_silent _ (loopEvent (promOn w)) body Hbody)
             by by_loop_event).
    intros Hoff. rewrite Hoff in Hbody.
    now rewrite (flat_map_silent _ (loopEvent false) body Hbody)
      by by_loop_event. }
  destruct Hsil as (Hd & Hc & Hi & Hp).
  destruct (fst (handle h first scripts w)) as [x|].
  - destruct Hres as (last & rel & Hcw & Hrel & _).
    rewrite (since_app _ _ _ Hcw).
    assert (Hrel' : connDecrs rel = [] /\ connCloses rel = []
                    /\ connIncrs rel = [] /\ proxyTimes rel = [])
      by (destruct Hrel as [->|(g & ->)]; auto).
    destruct Hrel' as (Hrd & Hrc & Hri & Hrp).
    split; [|split].
    + unfold connDecrs, connCloses in *.
      rewrite !flat_map_app, Hd, Hc, Hrd, Hrc, !app_nil_r. cbn [app].
      apply deferCalls_connDecrs.
    + intros Hoff. unfold proxyTimes in *.
      rewrite !flat_map_app, (Hp Hoff), Hrp. hush. reflexivity.
    + unfold connIncrs in *. rewrite !flat_map_app, Hi, Hri. hush.
      reflexivity.
  - destruct Hres as (Hcw & _). rewrite (since_app _ _ _ Hcw).
    rewrite Hd, Hc. split; [now destruct (promOn w)|]. auto.
Qed.

Lemma handle_telemetry_follows_switch_witness :
  proxyTimes
    (since (mkWorld handlerOpening None 1 false 0 [])
       (snd (handle sampleHandler sampleForwarder
               [scriptOk 2; scriptDecodeError]
               (mkWorld handlerOpening None 1 false 0 [])))) = [].
Proof.
  destruct (handle_telemetry_follows_switch sampleHandler sampleForwarder
              [scriptOk 2; scriptDecodeError]
              (mkWorld handlerOpening None 1 false 0 [])) as (_ & Hoff & _).
  exact (Hoff eq_refl).
Defined.

(** ** More on the allocator *)

(** X9: the allocator never shrinks a batch, whatever batch and decoded
    count it is given; and from the nil batch on, over any sequence of
    cycles, no batch is smaller than [concurrent]. *)
Theorem allocMaxConcurrent_never_shrinks :
  (forall (msgs : list MsgId) (lastCount : Z) (w : World),
      len msgs <= len (fst (allocMaxConcurrent msgs lastCount w)))
  /\ (forall (counts : list Z) (w : World),
         Forall (fun batch => concurrent <= len batch)
                (allocCycles counts [] w)).
Proof.
  split.
  - intros msgs lastCount w. rewrite allocMaxConcurrent_len.
    assert (H0 : 0 <= len msgs) by (unfold len; lia).
    unfold allocSize, concurrent.
    destruct (len msgs =? 0) eqn:E0.
    + apply Z.eqb_eq in E0. rewrite E0. simpl. lia.
    + apply Z.eqb_neq in E0.
      destruct ((len msgs <? maxConcurrent) && (len msgs =? lastCount)).
      * destruct (0 <? len msgs * 2); lia.
      * simpl. lia.
  - intros counts w.
    eapply Forall_impl; [|apply allocCycles_capacities; now left].
    intros batch H. now apply capacities_range.
Qed.

Lemma saturate_from (n : nat) :
  forall (msgs : list MsgId) (w : World) (k : Z),
    1 <= k ->
    len msgs = Z.min (2 ^ k) maxConcurrent ->
    len (fst (saturate n msgs w))
    = Z.min (2 ^ (k + Z.of_nat n)) maxConcurrent.
Proof.
  induction n as [|n IH]; intros msgs w k Hk Hlen.
  - simpl. now rewrite Z.add_0_r.
  - cbn [saturate].
    pose proof (allocMaxConcurrent_len msgs (len msgs) w) as Hal.
    destruct (allocMaxConcurrent msgs (len msgs) w) as [msgs' w'].
    cbn [fst] in Hal.
    replace (k + Z.of_nat (S n)) with ((k + 1) + Z.of_nat n) by lia.
    apply IH; [lia|]. rewrite Hal. unfold allocSize.
    assert (Hpow : 2 ^ (k + 1) = 2 * 2 ^ k)
      by (rewrite Z.pow_add_r by lia; lia).
    assert (Hmax : maxConcurrent = 2 ^ 10) by reflexivity.
    assert (Hpos : 0 < 2 ^ k) by (apply Z.pow_pos_nonneg; lia).
    rewrite Z.eqb_refl, andb_true_r.
    destruct (Z.lt_ge_cases k 10) as [Hlt|Hge].
    + assert (Hk1 : 2 ^ (k + 1) <= 2 ^ 10)
        by (apply Z.pow_le_mono_r; lia).
      assert (Hk0 : 2 ^ k < 2 ^ 10)
        by (apply Z.pow_lt_mono_r; lia).
      rewrite Hmax in *. rewrite Z.min_l in Hlen by lia.
      rewrite Hlen, (Z.min_l (2 ^ (k + 1))) by lia.
      destruct (2 ^ k =? 0) eqn:E0; [apply Z.eqb_eq in E0; lia|].
      destruct (2 ^ k <? 2 ^ 10) eqn:E1; [|apply Z.ltb_ge in E1; lia].
      unfold concurrent.
      destruct (0 <? 2 ^ k * 2) eqn:E2; [lia|apply Z.ltb_ge in E2; lia].
    + assert (Hk0 : 2 ^ 10 <= 2 ^ k)
        by (apply Z.pow_le_mono_r; lia).
      rewrite Hmax in *. rewrite Z.min_r in Hlen by lia.
      rewrite Hlen, (Z.min_r (2 ^ (k + 1))) by lia.
      reflexivity.
Qed.

(** X10: under sustained saturation (every cycle decodes as many messages
    as the batch holds) the capacity after [n] calls of the allocator,
    starting from the nil batch, is [concurrent ^ n] capped at
    [maxConcurrent]: it doubles for ten calls and then stays at 1024. *)
Theorem saturate_capacity :
  forall (n : nat) (w : World),
    len (fst (saturate (S n) [] w))
    = Z.min (concurrent ^ Z.of_nat (S n)) maxConcurrent.
Proof.
  intros n w. cbn [saturate].
  pose proof (allocMaxConcurrent_len [] (len (@nil MsgId)) w) as Hal.
  destruct (allocMaxConcurrent [] (len (@nil MsgId)) w) as [msgs' w'].
  cbn [fst] in Hal.
  rewrite (saturate_from n msgs' w' 1); [|lia|rewrite Hal; reflexivity].
  unfold concurrent. f_equal. f_equal. lia.
Qed.

(** ** A connection from construction to return *)

(** What [NewHandler] leaves behind for a supported cache type. *)
Lemma NewHandler_returned (cc : ClusterConfig) (client : Z) (w : World)
  (h : Handler) :
  fst (NewHandler cc client w) = Returned h ->
  ClusterID h = cc_ID cc /\ Name h = cc_Name cc /\ conn h = client
  /\ closeWhenChange h = cc_CloseWhenChange cc
  /\ snd (NewHandler cc client w)
     = mkWorld handlerOpening None (conns w) (promOn w) (poolNext w)
               (calls w ++ [EvConnIncr (cc_Name cc)]).
Proof.
  unfold NewHandler, bind, newStruct, emit, ret.
  destruct (cc_CacheType cc); simpl; intros H;
    try discriminate H; injection H as <-; auto.
Qed.

(** X11: a connection built by [NewHandler] and run by [Handle] until it
    returns: whatever the handler state was before construction, the new
    handler starts open, so the run ends with the handler closed, the
    counter one lower, the connection closed and deregistered once under
    the configured cluster id.  The gauge is incremented once, whether
    telemetry is on or not, and decremented once only when it is on. *)
Theorem serve_lifecycle :
  forall (cc : ClusterConfig) (client : Z) (first : FwdId)
         (scripts : list Script) (w : World) (x : Exit),
    fst (serve cc client first scripts w) = Returned (Some x) ->
    let w' := snd (serve cc client first scripts w) in
    let evs := since w w' in
    closed w' = handlerClosed
    /\ conns w' = wrap32 (conns w - 1)
    /\ connCloses evs = [client]
    /\ removed evs = [(cc_ID cc, client)]
    /\ connIncrs evs = [cc_Name cc]
    /\ connDecrs evs = (if promOn w then [cc_Name cc] else []).
Proof.
  intros cc client first scripts w x Hr w' evs. subst evs w'.
  unfold serve, andThen, Handle, bind, ret in *.
  destruct (NewHandler cc client w) as [[h|e] w1] eqn:EN;
    [|discriminate Hr].
  pose proof (NewHandler_returned cc client w h) as Hnew.
  rewrite EN in Hnew. cbn [fst snd] in Hnew.
  destruct (Hnew eq_refl) as (Hid & Hname & Hconn & _ & Hw1). clear Hnew.
  destruct (handle_shape h first scripts w1) as (body & Hbody & Hres).
  destruct (handle h first scripts w1) as [r w2] eqn:EH.
  cbn [fst snd] in *. injection Hr as ->.
  destruct Hres as (last & rel & Hcw & Hrel & Hopen & _).
  assert (Ho : closed w1 = handlerOpening) by (now rewrite Hw1).
  destruct (Hopen Ho) as (Hc & Hn).
  assert (Hon : promOn w1 = promOn w) by (now rewrite Hw1).
  assert (Hcalls : calls w2
                   = calls w ++ [EvConnIncr (cc_Name cc)] ++ body
                     ++ deferCalls h last w1 ++ rel).
  { rewrite Hcw, Hw1. cbn [calls]. now rewrite <- app_assoc. }
  rewrite (since_app _ _ _ Hcalls).
  assert (Hb : connCloses body = [] /\ removed body = []
               /\ connIncrs body = [] /\ connDecrs body = []).
  { unfold connCloses, removed, connIncrs, connDecrs.
    repeat split;
      now rewrite (flat_map_silent _ (loopEvent (promOn w1)) body Hbody)
        by by_loop_event. }
  destruct Hb as (Hb1 & Hb2 & Hb3 & Hb4).
  assert (Hr' : connCloses rel = [] /\ removed rel = []
                /\ connIncrs rel = [] /\ connDecrs rel = [])
    by (destruct Hrel as [->|(g & ->)]; auto).
  destruct Hr' as (Hr1 & Hr2 & Hr3 & Hr4).
  split; [exact Hc|]. split; [rewrite Hn, Hw1; reflexivity|].
  split; [|split; [|split]].
  - unfold connCloses in *. rewrite !flat_map_app, Hb1, Hr1.
    fold (connCloses (deferCalls h last w1)).
    rewrite (deferCalls_connCloses h last w1 Ho), Hconn. reflexivity.
  - unfold removed in *. rewrite !flat_map_app, Hb2, Hr2.
    fold (removed (deferCalls h last w1)).
    rewrite deferCalls_removed, Hid, Hconn. reflexivity.
  - unfold connIncrs in *. rewrite !flat_map_app, Hb3, Hr3. hush.
    reflexivity.
  - unfold connDecrs in *. rewrite !flat_map_app, Hb4, Hr4.
    fold (connDecrs (deferCalls h last w1)).
    rewrite deferCalls_connDecrs. fold (connCloses (deferCalls h last w1)).
    rewrite (deferCalls_connCloses h last w1 Ho), Hon, Hname.
    now destruct (promOn w).
Qed.

Lemma serve_lifecycle_witness :
  let cc := mkClusterConfig 7 "cluster-a" CacheTypeMemcache ":11211" false in
  let w := mkWorld handlerClosed (Some "stale"%string) 3 false 0 [] in
  let w' := snd (serve cc 42 sampleForwarder [scriptOk 2; scriptFlushError]
                   w) in
  closed w' = handlerClosed /\ conns w' = 2
  /\ connIncrs (since w w') = ["cluster-a"%string]
  /\ connDecrs (since w w') = [].
Proof.
  destruct (serve_lifecycle
              (mkClusterConfig 7 "cluster-a" CacheTypeMemcache ":11211" false)
              42 sampleForwarder [scriptOk 2; scriptFlushError]
              (mkWorld handlerClosed (Some "stale"%string) 3 false 0 [])
              ExitFlush eq_refl) as (Hc & Hn & _ & _ & Hi & Hd).
  exact (conj Hc (conj Hn (conj Hi Hd))).
Defined.

(** ** The close path at every point of an interleaving *)

Lemma interleave_progress (h : Handler) (e1 e2 : option error)
  (sched : list bool) (w : World) :
  closed w = handlerOpening ->
  exists pcs pc,
    interleave h e1 e2 sched (PcCompareAndSwap, PcCompareAndSwap) w
    = (pcs, closeProgress h (firstError e1 e2 sched) pc w).
Proof.
  intros Ho. destruct sched as [|[|] sched]; cbn [interleave fst snd].
  - exists (PcCompareAndSwap, PcCompareAndSwap), PcCompareAndSwap.
    reflexivity.
  - unfold bind. rewrite (closeStep_first h e1 w Ho).
    destruct (interleave_first_won h e1 e2 w sched PcSetErr
                PcCompareAndSwap eq_refl eq_refl) as (p1 & p2 & E & _).
    rewrite E. now exists (p1, p2), p1.
  - unfold bind. rewrite (closeStep_first h e2 w Ho).
    destruct (interleave_second_won h e1 e2 w sched PcCompareAndSwap
                PcSetErr eq_refl eq_refl) as (p1 & p2 & E & _).
    rewrite E. now exists (p1, p2), p2.
Qed.

(** X12: at every point of every interleaving of two [closeWithError] on
    an open handler, finished or not: the connection has been closed at
    most once, the counter is either untouched or one lower, [h.err] is
    either untouched or the error of the invocation that ran first; and
    once the counter is lower the connection has been closed and the
    error recorded. *)
Theorem closeWithError_interleaving_safe :
  forall (h : Handler) (e1 e2 : option error) (sched : list bool) (w : World),
    closed w = handlerOpening ->
    let w' := snd (interleave h e1 e2 sched
                     (PcCompareAndSwap, PcCompareAndSwap) w) in
    (connCloses (since w w') = [] \/ connCloses (since w w') = [conn h])
    /\ (conns w' = conns w \/ conns w' = wrap32 (conns w - 1))
    /\ (err w' = err w \/ err w' = firstError e1 e2 sched)
    /\ (conns w' <> conns w ->
        connCloses (since w w') = [conn h]
        /\ err w' = firstError e1 e2 sched
        /\ closed w' = handlerClosed).
Proof.
  intros h e1 e2 sched w Ho w'. subst w'.
  destruct (interleave_progress h e1 e2 sched w Ho) as (pcs & pc & ->).
  cbn [snd].
  assert (Hnil : forall c e n, since w (mkWorld c e n (promOn w) (poolNext w)
                                          (calls w)) = [])
    by (intros; apply since_app; cbn; now rewrite app_nil_r).
  assert (Hone : forall c e n,
             since w (mkWorld c e n (promOn w) (poolNext w)
                        (calls w ++ [EvConnClose (conn h)]))
             = [EvConnClose (conn h)])
    by (intros; now apply since_app).
  assert (Hw : since w w = [])
    by (apply since_app; now rewrite app_nil_r).
  assert (Hdone : forall c e n,
             connCloses
               (since w (mkWorld c e n (promOn w) (poolNext w)
                           (calls w ++ closeCalls h (promOn w))))
             = [conn h]).
  { intros c e n.
    assert (E : since w (mkWorld c e n (promOn w) (poolNext w)
                           (calls w ++ closeCalls h (promOn w)))
                = closeCalls h (promOn w)) by (now apply since_app).
    rewrite E. unfold closeCalls. now destruct (promOn w). }
  destruct pc; cbn [closeProgress conns err closed];
    rewrite ?Hw, ?Hnil, ?Hone, ?Hdone;
    (split; [auto|split; [auto|split; [auto|]]]); intros Hne;
    try (now elim Hne); auto.
Qed.

Lemma closeWithError_interleaving_safe_witness :
  let w' := snd (interleave sampleHandler (Some "EOF"%string)
                   (Some "shutdown"%string) [false; true; false]
                   (PcCompareAndSwap, PcCompareAndSwap) sampleWorld) in
  connCloses (since sampleWorld w') = [] \/
  connCloses (since sampleWorld w') = [42].
Proof.
  destruct (closeWithError_interleaving_safe sampleHandler
              (Some "EOF"%string) (Some "shutdown"%string)
              [false; true; false] sampleWorld eq_refl) as (H & _).
  exact H.
Defined.

(** ** The counter at the edges of [int32] *)

(** X13: [closeWithError] on an open handler decrements the counter
    without looking at its value: from a counter within [int32] the result
    is within [int32], it is exactly one lower (negative from zero on)
    unless the counter was the least [int32], where it wraps to the
    greatest. *)
Theorem closeWithError_counter_edges :
  forall (h : Handler) (e : option error) (w : World),
    closed w = handlerOpening ->
    - 2 ^ 31 <= conns w < 2 ^ 31 ->
    let c' := conns (snd (closeWithError h e w)) in
    - 2 ^ 31 <= c' < 2 ^ 31
    /\ (- 2 ^ 31 < conns w -> c' = conns w - 1)
    /\ (conns w = - 2 ^ 31 -> c' = 2 ^ 31 - 1).
Proof.
  intros h e w Ho Hrange c'. subst c'.
  rewrite (closeWithError_opening h e w Ho). cbn [snd closeProgress conns].
  unfold wrap32. split; [|split].
  - pose proof (Z.mod_pos_bound (conns w - 1 + 2 ^ 31) (2 ^ 32)) as Hm.
    lia.
  - intros Hlow. rewrite Z.mod_small; lia.
  - intros ->. reflexivity.
Qed.

Lemma closeWithError_counter_edges_witness :
  conns (snd (closeWithError sampleHandler None
                (mkWorld handlerOpening None 0 false 0 []))) = -1.
Proof.
  destruct (closeWithError_counter_edges sampleHandler None
              (mkWorld handlerOpening None 0 false 0 []) eq_refl)
    as (_ & Hdec & _).
  - cbn. lia.
  - apply Hdec. cbn. lia.
Defined.
